(** * generate_spritesheet.py: shelf packer and atlas builder

    A shallow embedding of [generate_spritesheet.py] and the properties of
    its shelf packer, power-of-two rounding, atlas builder and driver.

    Conventions of the embedding:
    - Python [int] is [Z] (unbounded, so [p <<= 1] never wraps).
    - Python [str] is [string]; comparison of strings is lexicographic on
      the bytes, which for UTF-8 agrees with Python's code point order.
    - [positions] is a [gmap string (Z * Z)]: the script only reads it
      through [positions[fname]].  [frames] is serialised by [json.dump],
      which prints a dict in insertion order, so it is an association
      list with Python's update-in-place [dict_set].
    - Every call that can end the run is an explicit outcome: the
      script's own [KeyError] of [positions[fname]] and [ValueError] of
      [max] on an empty sequence, the [ValueError] of [Image.new] on a
      negative width or height, and whatever [sheet.save] and the writing
      of the atlas raise; whether a save or a write fails is part of the
      [world].  An uncaught exception ends the process with status 1.
      Pixel work ([convert], [paste]) is recorded as events.
    - [os.listdir] gives the names of a directory in an order the script
      does not control: a [world] carries the listing as a list, and
      properties that must not depend on that order quantify over its
      permutations. *)

From Stdlib Require Import ZArith Lia String Ascii List Bool QArith.
From Equations Require Import Equations.
From stdpp Require Import base gmap list strings sorting.

Local Open Scope string_scope.
Local Open Scope Z_scope.
Local Open Scope list_scope.

(** ** next_power_of_two *)

(** [while p < n: p <<= 1].  The loop variable stays positive, which is
    what makes [n - p] a decreasing measure. *)
Equations? npot_loop (p n : Z) (Hp : 0 < p) : Z by wf (Z.to_nat (n - p)) lt :=
  npot_loop p n Hp with Z_lt_ge_dec p n := {
    | left _ => npot_loop (Z.shiftl p 1) n _
    | right _ => p }.
Proof.
  - rewrite Z.shiftl_mul_pow2 by lia. lia.
  - rewrite Z.shiftl_mul_pow2 by lia. lia.
Qed.

Definition next_power_of_two (n : Z) : Z := npot_loop 1 n eq_refl.

(** ** Images and the world the script runs in *)

(** A decoded RGBA image: [img.size] and its pixel buffer. *)
Record image := Image { img_size : Z * Z; pixels : list Z }.

Definition img_w (img : image) : Z := fst (img_size img).
Definition img_h (img : image) : Z := snd (img_size img).

(** PIL never produces a negative dimension. *)
Definition wf_image (img : image) : Prop := 0 <= img_w img /\ 0 <= img_h img.

Definition wf_images (images : list (string * image)) : Prop :=
  Forall (fun e => wf_image (snd e)) images.

(** The canvas: its size and the pastes made onto the transparent
    background, in order. *)
Record sheet := Sheet {
  sheet_size : Z * Z;
  pastes : list (image * (Z * Z))
}.

(** A JSON value as [json.dump] takes it; an object keeps its keys in
    insertion order. *)
#[local] Unset Elimination Schemes.
Inductive json :=
| JInt (n : Z)
| JFloat (q : Q)
| JBool (b : bool)
| JStr (s : string)
| JObj (fields : list (string * json)).
#[local] Set Elimination Schemes.

(** What the script sees of the file system: whether [--input] is a
    directory, [os.listdir] of it (in whatever order the system gives;
    a directory that exists is taken to be listable), for each name
    either the decoded image or the text of the exception raised by
    [Image.open(path).convert("RGBA")], and for the two writes
    ([sheet.save(path)]; [open(path, "w")] with [json.dump]) the text of
    the exception raised, if any. *)
Record world := World {
  isdir : bool;
  listdir : list string;
  open_image : string -> string + image;
  save_image : string -> sheet -> option string;
  dump_json : string -> json -> option string
}.

Record args := Args {
  arg_input : string;
  arg_output : string;
  arg_json : string;
  arg_width : Z;
  arg_padding : Z;
  arg_pot : bool
}.

(** ** Strings: [lower], [endswith], [splitext], [basename] *)

Definition lower_ascii (c : ascii) : ascii :=
  let n := nat_of_ascii c in
  if (65 <=? n)%nat && (n <=? 90)%nat then ascii_of_nat (n + 32) else c.

(** [str.lower] on the ASCII letters.  No character outside ASCII
    lower-cases to a character of one of the four suffixes, so this
    decides [f.lower().endswith(exts)] as Python does. *)
Fixpoint lower (s : string) : string :=
  match s with
  | EmptyString => EmptyString
  | String c s' => String (lower_ascii c) (lower s')
  end.

Definition endswith (s suffix : string) : bool :=
  let n := String.length s in
  let k := String.length suffix in
  (k <=? n)%nat && String.eqb (substring (n - k) k s) suffix.

Definition exts : list string := [".png"; ".jpg"; ".jpeg"; ".webp"].

Definition has_ext (f : string) : bool :=
  existsb (endswith (lower f)) exts.

(** [s.rfind(c)], with [None] for Python's [-1]. *)
Fixpoint rfind_from (i : nat) (c : ascii) (s : string) : option nat :=
  match s with
  | EmptyString => None
  | String a s' =>
      match rfind_from (S i) c s' with
      | Some j => Some j
      | None => if Ascii.eqb a c then Some i else None
      end
  end.

Definition rfind (c : ascii) (s : string) : option nat := rfind_from 0 c s.

(** [True] when some character of [p[i:j]] is not [c]. *)
Fixpoint has_other (c : ascii) (i j : nat) (p : string) : bool :=
  match p with
  | EmptyString => false
  | String a p' =>
      match i with
      | S i' => has_other c i' (pred j) p'
      | O =>
          match j with
          | O => false
          | S j' => negb (Ascii.eqb a c) || has_other c O j' p'
          end
      end
  end.

(** [os.path.splitext(p)[0]] (posixpath): cut at the last dot of the last
    path component, unless that component has only leading dots before
    it. *)
Definition splitext_root (p : string) : string :=
  let sepIndex := rfind "/" p in
  let filenameIndex := match sepIndex with Some i => S i | None => O end in
  match rfind "." p with
  | Some dotIndex =>
      if (filenameIndex <=? dotIndex)%nat && has_other "." filenameIndex dotIndex p
      then substring 0 dotIndex p
      else p
  | None => p
  end.

(** [os.path.basename(p)]: what follows the last slash. *)
Definition basename (p : string) : string :=
  match rfind "/" p with
  | Some i => substring (S i) (String.length p - S i) p
  | None => p
  end.

(** ** collect_images *)

Inductive message :=
| MsgSkipping (fname err : string)
| MsgInputNotFound (input : string)
| MsgNoImages
| MsgCreated (output : string) (final_w final_h : Z) (json : string) (nframes : nat).

(** The body of the [for fname in files] loop: the messages printed so
    far and the images appended so far. *)
Definition collect_step (w : world) (acc : list message * list (string * image))
    (fname : string) : list message * list (string * image) :=
  match open_image w fname with
  | inl e => (fst acc ++ [MsgSkipping fname e], snd acc)
  | inr img => (fst acc, snd acc ++ [(fname, img)])
  end.

Definition collect_images (w : world) : list message * list (string * image) :=
  let files := List.filter has_ext (listdir w) in
  let files := merge_sort String.le files in
  fold_left (collect_step w) files ([], []).

(** ** pack_images *)

Record pack_state := PackState {
  pk_x : Z;
  pk_y : Z;
  pk_row_height : Z;
  pk_positions : gmap string (Z * Z);
  pk_max_row_w : Z
}.

Section Pack.
Variables (max_width padding : Z).

Definition pack_init : pack_state :=
  PackState padding padding 0 ∅ 0.

(** One iteration of [for fname, img in images]. *)
Definition pack_step (st : pack_state) (e : string * image) : pack_state :=
  let fname := fst e in
  let w := img_w (snd e) in
  let h := img_h (snd e) in
  let wrap := pk_x st + w + padding >? max_width in
  let y := if wrap then pk_y st + (pk_row_height st + padding) else pk_y st in
  let x := if wrap then padding else pk_x st in
  let row_height := if wrap then 0 else pk_row_height st in
  let positions := <[fname := (x, y)]> (pk_positions st) in
  let x := x + (w + padding) in
  let max_row_w := if x >? pk_max_row_w st then x else pk_max_row_w st in
  let row_height := if h >? row_height then h else row_height in
  PackState x y row_height positions max_row_w.

Definition pack_loop (st : pack_state) (images : list (string * image)) : pack_state :=
  fold_left pack_step images st.
End Pack.

(** [max(xs, default=d)]. *)
Definition max_default (xs : list Z) (d : Z) : Z :=
  match xs with
  | [] => d
  | x :: xs' => fold_left Z.max xs' x
  end.

(** [max(xs)], which raises [ValueError] on an empty sequence. *)
Definition max_of (xs : list Z) : option Z :=
  match xs with
  | [] => None
  | x :: xs' => Some (fold_left Z.max xs' x)
  end.

Definition widths (images : list (string * image)) : list Z :=
  map (fun e => img_w (snd e)) images.

Definition pack_images (images : list (string * image)) (max_width padding : Z)
  : gmap string (Z * Z) * Z * Z :=
  let st := pack_loop max_width padding (pack_init padding) images in
  let total_height := pk_y st + pk_row_height st + padding in
  let total_width := Z.max (pk_max_row_w st) (max_default (widths images) 0 + 2 * padding) in
  (pk_positions st, total_width, total_height).

(** ** Exceptions that can end the run *)

(** [KeyError] of [positions[fname]]; [ValueError] of [max] on an empty
    sequence; [ValueError] of [Image.new] ("Width and height must be
    >= 0"); the exception of [sheet.save]; the exception of
    [open(args.json, "w")] or [json.dump]. *)
Inductive exn :=
| KeyError (key : string)
| ValueError
| ValueError_size
| SaveError (err : string)
| DumpError (err : string).

Inductive result (A : Type) :=
| Ok (a : A)
| Raise (e : exn).
Arguments Ok {A} a.
Arguments Raise {A} e.

Definition bind {A B : Type} (r : result A) (k : A -> result B) : result B :=
  match r with
  | Ok a => k a
  | Raise e => Raise e
  end.

Notation "r >>= k" := (bind r k) (at level 50, left associativity).

(** [positions[fname]]. *)
Definition getitem (positions : gmap string (Z * Z)) (fname : string) : result (Z * Z) :=
  match positions !! fname with
  | Some xy => Ok xy
  | None => Raise (KeyError fname)
  end.

(** ** create_sheet *)

Definition paste_step (positions : gmap string (Z * Z))
    (acc : result (list (image * (Z * Z)))) (e : string * image)
  : result (list (image * (Z * Z))) :=
  acc >>= fun ps =>
  getitem positions (fst e) >>= fun xy =>
  Ok (ps ++ [(snd e, xy)]).

(** The dimensions [create_sheet] works with and returns. *)
Definition sheet_dims (sheet_w sheet_h : Z) (pot : bool) : Z * Z :=
  if pot then (next_power_of_two sheet_w, next_power_of_two sheet_h)
  else (sheet_w, sheet_h).

(** [Image.new("RGBA", (sheet_w, sheet_h), pad_bg)] raises on a negative
    width or height (a zero one is accepted); then come the pastes, then
    [sheet.save(output_image_path)].  Returns the sheet that was saved
    and the pair [(sheet_w, sheet_h)]. *)
Definition create_sheet (w : world) (images : list (string * image))
    (positions : gmap string (Z * Z)) (sheet_w sheet_h : Z)
    (output_image_path : string) (pot : bool)
  : result (sheet * (Z * Z)) :=
  let dims := sheet_dims sheet_w sheet_h pot in
  if (fst dims <? 0) || (snd dims <? 0) then Raise ValueError_size
  else
    fold_left (paste_step positions) images (Ok []) >>= fun ps =>
    let s := Sheet dims ps in
    match save_image w output_image_path s with
    | Some err => Raise (SaveError err)
    | None => Ok (s, dims)
    end.

(** ** build_json *)

(** [d[k] = v] on a dict kept in insertion order: an existing key keeps
    its place and takes the new value, a new key goes last. *)
Fixpoint dict_set {V : Type} (k : string) (v : V) (d : list (string * V))
  : list (string * V) :=
  match d with
  | [] => [(k, v)]
  | (k', v') :: d' =>
      if String.eqb k' k then (k', v) :: d' else (k', v') :: dict_set k v d'
  end.

Definition frame_record (x y w h : Z) : json :=
  JObj [ ("frame", JObj [("x", JInt x); ("y", JInt y); ("w", JInt w); ("h", JInt h)]);
         ("rotated", JBool false);
         ("trimmed", JBool false);
         ("spriteSourceSize", JObj [("x", JInt 0); ("y", JInt 0); ("w", JInt w); ("h", JInt h)]);
         ("sourceSize", JObj [("w", JInt w); ("h", JInt h)]);
         ("pivot", JObj [("x", JFloat (1 # 2)); ("y", JFloat (1 # 2))]) ].

Definition frames_step (positions : gmap string (Z * Z))
    (acc : result (list (string * json))) (e : string * image)
  : result (list (string * json)) :=
  acc >>= fun frames =>
  let name := splitext_root (fst e) in
  getitem positions (fst e) >>= fun xy =>
  Ok (dict_set name (frame_record (fst xy) (snd xy) (img_w (snd e)) (img_h (snd e))) frames).

Definition build_frames (images : list (string * image))
    (positions : gmap string (Z * Z)) : result (list (string * json)) :=
  fold_left (frames_step positions) images (Ok []).

Definition build_meta (sheet_w sheet_h : Z) (image_filename : string) : json :=
  JObj [ ("app", JStr "generate_spritesheet.py");
         ("image", JStr image_filename);
         ("size", JObj [("w", JInt sheet_w); ("h", JInt sheet_h)]);
         ("scale", JStr "1") ].

Definition build_json (images : list (string * image))
    (positions : gmap string (Z * Z)) (sheet_w sheet_h : Z)
    (image_filename : string) : result json :=
  build_frames images positions >>= fun frames =>
  Ok (JObj [("frames", JObj frames); ("meta", build_meta sheet_w sheet_h image_filename)]).

(** ** main *)

Inductive file_write :=
| SavedImage (path : string) (s : sheet)
| DumpedJson (path : string) (atlas : json).

Inductive exit :=
| Returned
| SysExit (code : Z)
| Uncaught (e : exn).


(** How a run ends, what it printed and which files it wrote in full. *)
Record outcome := Outcome {
  status : exit;
  stdout : list message;
  written : list file_write
}.

(** The effective row width: [max(args.width, max_img_w + 2*args.padding)]. *)
Definition effective_max_width (width max_img_w padding : Z) : Z :=
  Z.max width (max_img_w + 2 * padding).

Definition main (w : world) (a : args) : outcome :=
  if negb (isdir w) then
    Outcome (SysExit 1) [MsgInputNotFound (arg_input a)] []
  else
    let '(msgs, images) := collect_images w in
    match images with
    | [] => Outcome (SysExit 1) (msgs ++ [MsgNoImages]) []
    | _ :: _ =>
      match max_of (widths images) with
      | None => Outcome (Uncaught ValueError) msgs []
      | Some max_img_w =>
        let max_width := effective_max_width (arg_width a) max_img_w (arg_padding a) in
        let '(positions, sheet_w, sheet_h) := pack_images images max_width (arg_padding a) in
        match create_sheet w images positions sheet_w sheet_h (arg_output a) (arg_pot a) with
        | Raise e => Outcome (Uncaught e) msgs []
        | Ok (s, (final_w, final_h)) =>
          match build_json images positions final_w final_h (basename (arg_output a)) with
          | Raise e => Outcome (Uncaught e) msgs [SavedImage (arg_output a) s]
          | Ok atlas =>
            match dump_json w (arg_json a) atlas with
            | Some err =>
              Outcome (Uncaught (DumpError err)) msgs [SavedImage (arg_output a) s]
            | None =>
              Outcome Returned
                (msgs ++ [MsgCreated (arg_output a) final_w final_h (arg_json a)
                                     (length images)])
                [SavedImage (arg_output a) s; DumpedJson (arg_json a) atlas]
            end
          end
        end
      end
    end.


(** ** Vocabulary of the properties *)

Definition is_pow2 (m : Z) : Prop := exists k, 0 <= k /\ m = 2 ^ k.

Definition names (images : list (string * image)) : list string := map fst images.

(** Where one iteration of the packer puts its image. *)
Definition placement (max_width padding : Z) (st : pack_state) (e : string * image)
  : Z * Z :=
  if pk_x st + img_w (snd e) + padding >? max_width
  then (padding, pk_y st + (pk_row_height st + padding))
  else (pk_x st, pk_y st).

(** The placements of a whole run, in the order of the images. *)
Fixpoint layout (max_width padding : Z) (st : pack_state)
    (images : list (string * image)) : list (Z * Z) :=
  match images with
  | [] => []
  | e :: rest =>
      placement max_width padding st e
        :: layout max_width padding (pack_step max_width padding st e) rest
  end.

(** Two sprites keep at least [padding] pixels between them: the
    rectangle of each, grown by [padding] in width and height, does not
    meet the other's. *)
Definition padded_disjoint (padding : Z) (a b : (Z * Z) * image) : Prop :=
  let '((xa, ya), ia) := a in
  let '((xb, yb), ib) := b in
  xa + img_w ia + padding <= xb \/ xb + img_w ib + padding <= xa \/
  ya + img_h ia + padding <= yb \/ yb + img_h ib + padding <= ya.


(** Lookup of a field of a JSON object. *)
Definition jget (k : string) (j : json) : option json :=
  match j with
  | JObj fields => snd <$> List.find (fun f => String.eqb (fst f) k) fields
  | _ => None
  end.

Definition dumped_of (fw : file_write) : option json :=
  match fw with
  | DumpedJson _ atlas => Some atlas
  | SavedImage _ _ => None
  end.

Definition saved_of (fw : file_write) : option sheet :=
  match fw with
  | SavedImage _ s => Some s
  | DumpedJson _ _ => None
  end.

(** The atlas a run wrote, and the sheet it saved. *)
Definition atlas_of (o : outcome) : option json := head (omap dumped_of (written o)).
Definition sheet_of (o : outcome) : option sheet := head (omap saved_of (written o)).

(** A top-level field of the atlas a run wrote, a field of its ["meta"],
    and the pastes of the sheet it saved. *)
Definition atlas_field (k : string) (o : outcome) : option json :=
  match atlas_of o with
  | Some atlas => jget k atlas
  | None => None
  end.

Definition meta_field (k : string) (o : outcome) : option json :=
  match atlas_field "meta" o with
  | Some meta => jget k meta
  | None => None
  end.

Definition pastes_of (o : outcome) : option (list (image * (Z * Z))) :=
  match sheet_of o with
  | Some s => Some (pastes s)
  | None => None
  end.



Definition with_pot (a : args) (pot : bool) : args :=
  Args (arg_input a) (arg_output a) (arg_json a) (arg_width a) (arg_padding a) pot.

(** The files [collect_images] walks: the listing filtered by extension
    and sorted. *)
Definition files_of (w : world) : list string :=
  merge_sort String.le (List.filter has_ext (listdir w)).

Definition decoded (w : world) (fname : string) : option (string * image) :=
  match open_image w fname with
  | inr img => Some (fname, img)
  | inl _ => None
  end.

Definition skipped (w : world) (fname : string) : option message :=
  match open_image w fname with
  | inl e => Some (MsgSkipping fname e)
  | inr _ => None
  end.

Definition heights (images : list (string * image)) : list Z :=
  map (fun e => img_h (snd e)) images.

(** The length of a row holding [images] side by side, each followed by
    one padding. *)
Definition row_span (padding : Z) (images : list (string * image)) : Z :=
  fold_right (fun e acc => img_w (snd e) + padding + acc) 0 images.

(** The last image whose file name has the stem [k]. *)
Definition last_with_stem (k : string) (images : list (string * image))
  : option (string * image) :=
  List.find (fun e => String.eqb (splitext_root (fst e)) k) (rev images).

(** The frame [build_json] writes for an image, given the placement map. *)
Definition frame_of (positions : gmap string (Z * Z)) (e : string * image) : option json :=
  match positions !! fst e with
  | Some xy => Some (frame_record (fst xy) (snd xy) (img_w (snd e)) (img_h (snd e)))
  | None => None
  end.

(** ** The shelf algorithm as the specification words it *)

Module ShelfSpec.

(** The cursor, the current row height, the largest x reached and the
    largest image width seen. *)
Record cursor := Cursor {
  cx : Z;
  cy : Z;
  row_h : Z;
  extent : Z;
  widest : Z
}.

Section Run.
Variables (max_width padding : Z).

Definition start : cursor := Cursor padding padding 0 padding 0.

Definition new_row (c : cursor) : cursor :=
  Cursor padding (cy c + (row_h c + padding)) 0 (extent c) (widest c).

Definition advance (c : cursor) (img : image) : cursor :=
  let x := cx c + (img_w img + padding) in
  Cursor x (cy c) (Z.max (row_h c) (img_h img))
         (Z.max (extent c) x) (Z.max (widest c) (img_w img)).

Inductive run : cursor -> list (string * image) ->
                list (string * (Z * Z)) -> cursor -> Prop :=
| run_done c :
    run c [] [] c
| run_fit c name img rest ps c' :
    cx c + img_w img + padding <= max_width ->
    run (advance c img) rest ps c' ->
    run c ((name, img) :: rest) ((name, (cx c, cy c)) :: ps) c'
| run_wrap c name img rest ps c' :
    cx c + img_w img + padding > max_width ->
    run (advance (new_row c) img) rest ps c' ->
    run c ((name, img) :: rest)
        ((name, (cx (new_row c), cy (new_row c))) :: ps) c'.

Definition final_width (c : cursor) : Z :=
  Z.max (extent c) (widest c + 2 * padding).

Definition final_height (c : cursor) : Z :=
  cy c + row_h c + padding.
End Run.

(** The placement map: each placement recorded under its image's name,
    in order. *)
Definition record_all (ps : list (string * (Z * Z))) : gmap string (Z * Z) :=
  fold_left (fun m e => <[fst e := snd e]> m) ps ∅.

End ShelfSpec.

(** The packer state and the cursor of the specification agree. *)
Definition sim (padding : Z) (st : pack_state) (c : ShelfSpec.cursor) : Prop :=
  ShelfSpec.cx c = pk_x st /\ ShelfSpec.cy c = pk_y st /\
  ShelfSpec.row_h c = pk_row_height st /\
  ShelfSpec.extent c = Z.max padding (pk_max_row_w st).

(** ** Concrete inputs *)

(** The three images of the scenario of the specification. *)
Definition sprites3 : list (string * image) :=
  [("a.png", Image (64, 64) []); ("b.png", Image (128, 64) []); ("c.png", Image (64, 128) [])].

(** A directory whose only image file does not decode. *)
(** Writes that always succeed. *)
Definition save_ok (path : string) (s : sheet) : option string := None.
Definition dump_ok (path : string) (atlas : json) : option string := None.


(** The scenario as a directory, listed in two orders. *)
Definition open3 (f : string) : string + image :=
  if String.eqb f "a.png" then inr (Image (64, 64) [])
  else if String.eqb f "b.png" then inr (Image (128, 64) [])
  else if String.eqb f "c.png" then inr (Image (64, 128) [])
  else inl "cannot identify image file".

Definition world_abc : world :=
  World true ["a.png"; "b.png"; "c.png"] open3 save_ok dump_ok.
Definition world_cab : world :=
  World true ["c.png"; "a.png"; "b.png"] open3 save_ok dump_ok.




(** The same directory where the atlas cannot be written. *)
Definition world_nojson : world :=
  World true ["a.png"; "b.png"; "c.png"] open3 save_ok
        (fun _ _ => Some "Permission denied").

Definition args_abc : args := Args "jason" "s.png" "s.json" 256 2 false.



(** Two files with the same stem. *)
Definition open_stems (f : string) : string + image :=
  if String.eqb f "a.jpg" then inr (Image (32, 32) [])
  else if String.eqb f "a.png" then inr (Image (16, 16) [])
  else inl "cannot identify image file".

Definition world_stems : world :=
  World true ["a.png"; "a.jpg"] open_stems save_ok dump_ok.

(** * Properties *)

(** ** next_power_of_two *)

Lemma shiftl_1_double p : Z.shiftl p 1 = 2 * p.
Proof. rewrite Z.shiftl_mul_pow2 by lia. lia. Qed.

(** The loop started at [2 ^ k] stops at the first power of two that is
    at least [n]. *)
Lemma npot_loop_spec p n Hp :
  forall k, 0 <= k -> p = 2 ^ k -> (k = 0 \/ 2 ^ (k - 1) < n) ->
  exists j, k <= j /\ npot_loop p n Hp = 2 ^ j /\ n <= 2 ^ j /\
            (j = 0 \/ 2 ^ (j - 1) < n).
Proof.
  funelim (npot_loop p n Hp); intros k Hk Hpk Hlow.
  - destruct (H (k + 1)) as (j & Hj & Hr & Hn & Hl).
    + lia.
    + rewrite shiftl_1_double, Z.pow_add_r by lia. lia.
    + right. replace (k + 1 - 1) with k by lia. lia.
    + exists j. repeat split; try lia; auto.
  - exists k. repeat split; try lia; auto.
Qed.

Lemma next_power_of_two_spec n :
  exists j, 0 <= j /\ next_power_of_two n = 2 ^ j /\ n <= 2 ^ j /\
            (j = 0 \/ 2 ^ (j - 1) < n).
Proof.
  unfold next_power_of_two.
  destruct (npot_loop_spec 1 n eq_refl 0) as (j & ? & ? & ? & ?);
    [lia | reflexivity | left; reflexivity |].
  exists j; auto.
Qed.

Lemma next_power_of_two_pow2 n : is_pow2 (next_power_of_two n).
Proof. destruct (next_power_of_two_spec n) as (j & ? & ? & _). exists j; auto. Qed.

Lemma next_power_of_two_ge n : n <= next_power_of_two n.
Proof. destruct (next_power_of_two_spec n) as (j & ? & ? & ? & _). lia. Qed.

Lemma next_power_of_two_least n m :
  is_pow2 m -> n <= m -> next_power_of_two n <= m.
Proof.
  intros (i & Hi & ->) Hle.
  destruct (next_power_of_two_spec n) as (j & Hj & -> & _ & [-> | Hlow]).
  - change (2 ^ 0) with 1. pose proof (Z.pow_pos_nonneg 2 i). lia.
  - apply Z.pow_le_mono_r; [lia |].
    assert (j - 1 < i); [| lia].
    apply (Z.pow_lt_mono_r_iff 2); lia.
Qed.

Lemma next_power_of_two_fix n : is_pow2 n -> next_power_of_two n = n.
Proof.
  intros Hn. apply Z.le_antisymm.
  - apply next_power_of_two_least; [assumption | lia].
  - apply next_power_of_two_ge.
Qed.


(** ** pack_images: the loop, step by step *)

Section PackFacts.
Variables (max_width padding : Z).

Local Abbreviation step := (pack_step max_width padding).
Local Abbreviation loop := (pack_loop max_width padding).
Local Abbreviation place := (placement max_width padding).
Local Abbreviation lay := (layout max_width padding).

(** The two ways through the loop body. *)
Lemma pack_step_cases st e :
  let st' := step st e in
  let w := img_w (snd e) in
  let h := img_h (snd e) in
  (pk_x st + w + padding <= max_width /\
   place st e = (pk_x st, pk_y st) /\
   pk_x st' = pk_x st + w + padding /\
   pk_y st' = pk_y st /\
   pk_row_height st' = Z.max (pk_row_height st) h /\
   pk_max_row_w st' = Z.max (pk_max_row_w st) (pk_x st + w + padding))
  \/
  (pk_x st + w + padding > max_width /\
   place st e = (padding, pk_y st + pk_row_height st + padding) /\
   pk_x st' = padding + w + padding /\
   pk_y st' = pk_y st + pk_row_height st + padding /\
   pk_row_height st' = Z.max 0 h /\
   pk_max_row_w st' = Z.max (pk_max_row_w st) (padding + w + padding)).
Proof.
  unfold pack_step, placement; cbv zeta.
  destruct (Z.gtb_spec (pk_x st + img_w (snd e) + padding) max_width); cbn [pk_x pk_y pk_row_height pk_max_row_w];
    [right | left]; repeat split; try lia; try (f_equal; lia).
  all: repeat match goal with |- context [?a >? ?b] => destruct (Z.gtb_spec a b) end; lia.
Qed.

Lemma pack_step_row_height st e :
  0 <= img_h (snd e) -> 0 <= pk_row_height st -> 0 <= pk_row_height (step st e).
Proof.
  intros Hh Hrh.
  destruct (pack_step_cases st e) as [(_ & _ & _ & _ & -> & _) | (_ & _ & _ & _ & -> & _)]; lia.
Qed.

Lemma pack_step_positions st e :
  pk_positions (step st e) = <[fst e := place st e]> (pk_positions st).
Proof.
  unfold pack_step, placement.
  destruct (_ >? max_width); reflexivity.
Qed.

Lemma pack_loop_cons st e images :
  loop st (e :: images) = loop (step st e) images.
Proof. reflexivity. Qed.

Lemma layout_length st images : length (lay st images) = length images.
Proof.
  revert st. induction images as [| e images IH]; intros st; simpl; [| rewrite IH]; reflexivity.
Qed.

(** A name the loop does not meet keeps its entry. *)
Lemma positions_frame st images fname :
  fname ∉ names images ->
  pk_positions (loop st images) !! fname = pk_positions st !! fname.
Proof.
  revert st. induction images as [| e images IH]; intros st Hnot; [reflexivity |].
  rewrite pack_loop_cons, IH.
  - rewrite pack_step_positions. apply lookup_insert_ne.
    intros <-. apply Hnot. simpl. left.
  - intros Hin. apply Hnot. simpl. right. exact Hin.
Qed.

(** With distinct names the map holds, for the [i]-th image, the
    [i]-th placement of the run. *)
Lemma positions_lookup st images i e :
  NoDup (names images) ->
  images !! i = Some e ->
  pk_positions (loop st images) !! fst e = lay st images !! i.
Proof.
  revert st i. induction images as [| e0 images IH]; intros st i Hnd Hi; [discriminate |].
  simpl in Hnd. apply NoDup_cons in Hnd as [Hnot Hnd].
  rewrite pack_loop_cons. destruct i as [| i]; simpl in Hi |- *.
  - injection Hi as <-.
    rewrite positions_frame by exact Hnot.
    rewrite pack_step_positions. apply lookup_insert_eq.
  - apply IH; assumption.
Qed.

(** Every name met by the loop has an entry afterwards. *)
Lemma positions_is_Some st images fname :
  fname ∈ names images -> is_Some (pk_positions (loop st images) !! fname).
Proof.
  revert st. induction images as [| e images IH]; intros st Hin.
  - inversion Hin.
  - rewrite pack_loop_cons.
    destruct (decide (fname ∈ names images)) as [Hlater | Hnot].
    + apply IH, Hlater.
    + rewrite positions_frame by exact Hnot.
      simpl in Hin. apply elem_of_cons in Hin as [-> | Hin]; [| contradiction].
      rewrite pack_step_positions, lookup_insert_eq. eauto.
Qed.

(** Entries of names the loop does not meet are the only others. *)
Lemma positions_dom st images :
  dom (pk_positions (loop st images)) = list_to_set (names images) ∪ dom (pk_positions st).
Proof.
  revert st. induction images as [| e images IH]; intros st.
  - simpl. symmetry. apply (left_id_L ∅ (∪)).
  - rewrite pack_loop_cons, IH, pack_step_positions, dom_insert_L. simpl.
    rewrite (assoc_L (∪)), (comm_L (∪) (list_to_set (names images))). reflexivity.
Qed.

Section Geometry.
Hypothesis Hpad : 0 <= padding.

(** Later images go right of the cursor in the current row, or below
    the current row. *)
Lemma layout_after st images j xj yj :
  wf_images images -> 0 <= pk_row_height st ->
  lay st images !! j = Some (xj, yj) ->
  (yj = pk_y st /\ pk_x st <= xj) \/
  pk_y st + pk_row_height st + padding <= yj.
Proof.
  revert st j. induction images as [| e images IH]; intros st j Hwf Hrh Hj; [discriminate |].
  apply Forall_cons in Hwf as [[Hw Hh] Hwf].
  pose proof (pack_step_cases st e) as Hc; cbv zeta in Hc.
  destruct j as [| j]; simpl in Hj.
  - injection Hj as Hj.
    destruct Hc as [(_ & Hp & _) | (_ & Hp & _)]; rewrite Hp in Hj;
      injection Hj as <- <-; lia.
  - apply IH in Hj; [| assumption |].
    + destruct Hc as [(_ & _ & Hx & Hy & Hr & _) | (_ & _ & Hx & Hy & Hr & _)];
        rewrite Hx, Hy, Hr in Hj; lia.
    + apply pack_step_row_height; assumption.
Qed.

(** An earlier image ends, padding included, left of a later one in
    its row or above a later one in a lower row. *)
Lemma layout_ordered st images i j ei xi yi xj yj :
  wf_images images -> 0 <= pk_row_height st ->
  (i < j)%nat ->
  images !! i = Some ei ->
  lay st images !! i = Some (xi, yi) ->
  lay st images !! j = Some (xj, yj) ->
  (yi = yj /\ xi + img_w (snd ei) + padding <= xj) \/
  yi + img_h (snd ei) + padding <= yj.
Proof.
  revert st i j. induction images as [| e images IH];
    intros st i j Hwf Hrh Hij Hei Hi Hj; [discriminate |].
  pose proof Hwf as Hwf0.
  apply Forall_cons in Hwf as [[Hw Hh] Hwf].
  pose proof (pack_step_cases st e) as Hc; cbv zeta in Hc.
  pose proof (pack_step_row_height st e Hh Hrh) as Hrh'.
  destruct j as [| j]; [lia |]. simpl in Hj.
  destruct i as [| i]; simpl in Hi, Hei.
  - injection Hei as <-. injection Hi as Hi.
    apply layout_after in Hj; [| assumption | assumption].
    destruct Hc as [(_ & Hp & Hx & Hy & Hr & _) | (_ & Hp & Hx & Hy & Hr & _)];
      rewrite Hp in Hi; injection Hi as <- <-; rewrite Hx, Hy, Hr in Hj; lia.
  - eapply (IH (step st e) i j); eauto. lia.
Qed.

(** The loop never shrinks the row extent or the bottom of the
    current row. *)
Lemma pack_loop_grows st images :
  wf_images images -> 0 <= pk_row_height st ->
  let st' := loop st images in
  pk_max_row_w st <= pk_max_row_w st' /\
  pk_y st + pk_row_height st <= pk_y st' + pk_row_height st' /\
  0 <= pk_row_height st'.
Proof.
  revert st. induction images as [| e images IH]; intros st Hwf Hrh; cbv zeta.
  - simpl. lia.
  - apply Forall_cons in Hwf as [[Hw Hh] Hwf].
    rewrite pack_loop_cons.
    pose proof (pack_step_cases st e) as Hc; cbv zeta in Hc.
    pose proof (pack_step_row_height st e Hh Hrh) as Hrh'.
    specialize (IH (step st e) Hwf Hrh'). cbv zeta in IH.
    destruct Hc as [(_ & _ & Hx & Hy & Hr & Hm) | (_ & _ & Hx & Hy & Hr & Hm)];
      rewrite Hy, Hr, Hm in IH; lia.
Qed.

(** Every placed image ends, padding included, within the row extent
    and, padding excluded, above the bottom of the last row. *)
Lemma layout_within st images i e x y :
  wf_images images -> 0 <= pk_row_height st ->
  images !! i = Some e ->
  lay st images !! i = Some (x, y) ->
  let st' := loop st images in
  x + img_w (snd e) + padding <= pk_max_row_w st' /\
  y + img_h (snd e) <= pk_y st' + pk_row_height st'.
Proof.
  revert st i. induction images as [| e0 images IH]; intros st i Hwf Hrh He Hi; [discriminate |].
  pose proof Hwf as Hwf0.
  apply Forall_cons in Hwf as [[Hw Hh] Hwf].
  pose proof (pack_step_cases st e0) as Hc; cbv zeta in Hc.
  pose proof (pack_step_row_height st e0 Hh Hrh) as Hrh'.
  cbv zeta. rewrite pack_loop_cons.
  destruct i as [| i]; simpl in He, Hi.
  - injection He as <-. injection Hi as Hi.
    pose proof (pack_loop_grows (step st e0) images Hwf Hrh') as Hg. cbv zeta in Hg.
    destruct Hc as [(_ & Hp & Hx & Hy & Hr & Hm) | (_ & Hp & Hx & Hy & Hr & Hm)];
      rewrite Hp in Hi; injection Hi as <- <-; rewrite Hy, Hr, Hm in Hg; lia.
  - apply (IH (step st e0) i); assumption.
Qed.
End Geometry.

(** When every image fits the row width on its own, no row grows
    beyond it. *)
Lemma pack_loop_bounded st images :
  Forall (fun e => padding + img_w (snd e) + padding <= max_width) images ->
  pk_max_row_w st <= max_width ->
  pk_max_row_w (loop st images) <= max_width.
Proof.
  revert st. induction images as [| e images IH]; intros st Hfit Hm; [exact Hm |].
  apply Forall_cons in Hfit as [He Hfit].
  rewrite pack_loop_cons. apply IH; [assumption |].
  pose proof (pack_step_cases st e) as Hc; cbv zeta in Hc.
  destruct Hc as [(? & _ & _ & _ & _ & ->) | (? & _ & _ & _ & _ & ->)]; lia.
Qed.
End PackFacts.

(** ** The placements of pack_images *)

Lemma pack_images_positions images max_width padding :
  fst (fst (pack_images images max_width padding)) =
  pk_positions (pack_loop max_width padding (pack_init padding) images).
Proof. reflexivity. Qed.

(** The [i]-th image is found in the map, at the [i]-th placement. *)
Lemma pack_images_lookup images max_width padding i e :
  NoDup (names images) ->
  images !! i = Some e ->
  exists xy,
    fst (fst (pack_images images max_width padding)) !! fst e = Some xy /\
    layout max_width padding (pack_init padding) images !! i = Some xy.
Proof.
  intros Hnd Hi. rewrite pack_images_positions.
  rewrite (positions_lookup _ _ _ _ i e Hnd Hi).
  destruct (layout _ _ _ _ !! i) as [xy |] eqn:Hl; [eauto |].
  apply lookup_ge_None in Hl. rewrite layout_length in Hl.
  apply lookup_lt_Some in Hi. lia.
Qed.

Lemma padded_disjoint_sym padding a b :
  padded_disjoint padding a b -> padded_disjoint padding b a.
Proof.
  destruct a as [[xa ya] ia], b as [[xb yb] ib]. unfold padded_disjoint. tauto.
Qed.

Lemma pack_images_ordered images max_width padding i j ei ej :
  0 <= padding -> wf_images images -> NoDup (names images) ->
  (i < j)%nat ->
  images !! i = Some ei -> images !! j = Some ej ->
  exists pi pj,
    fst (fst (pack_images images max_width padding)) !! fst ei = Some pi /\
    fst (fst (pack_images images max_width padding)) !! fst ej = Some pj /\
    padded_disjoint padding (pi, snd ei) (pj, snd ej).
Proof.
  intros Hpad Hwf Hnd Hij Hi Hj.
  destruct (pack_images_lookup images max_width padding i ei Hnd Hi) as ([xi yi] & Hpi & Hli).
  destruct (pack_images_lookup images max_width padding j ej Hnd Hj) as ([xj yj] & Hpj & Hlj).
  exists (xi, yi), (xj, yj). split; [assumption |]. split; [assumption |].
  pose proof (layout_ordered max_width padding Hpad (pack_init padding) images
                i j ei xi yi xj yj Hwf (Z.le_refl 0) Hij Hi Hli Hlj) as Ho.
  unfold padded_disjoint. lia.
Qed.

(** C1: for distinctly named, well-formed images and [0 <= padding], any
    two sprites are placed so that their rectangles, each grown by the
    padding, do not intersect. *)
Theorem pack_images_no_overlap images max_width padding i j ei ej :
  0 <= padding -> wf_images images -> NoDup (names images) ->
  i <> j ->
  images !! i = Some ei -> images !! j = Some ej ->
  exists pi pj,
    fst (fst (pack_images images max_width padding)) !! fst ei = Some pi /\
    fst (fst (pack_images images max_width padding)) !! fst ej = Some pj /\
    padded_disjoint padding (pi, snd ei) (pj, snd ej).
Proof.
  intros Hpad Hwf Hnd Hij Hi Hj.
  destruct (Nat.lt_total i j) as [Hlt | [Heq | Hgt]]; [| contradiction |].
  - eapply pack_images_ordered; eauto.
  - destruct (pack_images_ordered images max_width padding j i ej ei) as (pj & pi & ? & ? & ?);
      auto.
    exists pi, pj. auto using padded_disjoint_sym.
Qed.

Lemma sprites3_wf : wf_images sprites3.
Proof.
  unfold wf_images, sprites3, wf_image, img_w, img_h.
  repeat (apply Forall_cons; split; [simpl; lia |]). apply Forall_nil_2.
Qed.

Lemma sprites3_NoDup : NoDup (names sprites3).
Proof. apply (bool_decide_unpack _). vm_compute. exact I. Qed.

Lemma pack_images_no_overlap_witness :
  exists pi pj,
    fst (fst (pack_images sprites3 256 2)) !! "a.png" = Some pi /\
    fst (fst (pack_images sprites3 256 2)) !! "c.png" = Some pj /\
    padded_disjoint 2 (pi, Image (64, 64) []) (pj, Image (64, 128) []).
Proof.
  apply (pack_images_no_overlap sprites3 256 2 0 2
           ("a.png", Image (64, 64) []) ("c.png", Image (64, 128) [])).
  - lia.
  - exact sprites3_wf.
  - exact sprites3_NoDup.
  - lia.
  - reflexivity.
  - reflexivity.
Defined.

(** Neighbours in a row are exactly one padding apart: the 128x64 sprite
    starts 2 pixels right of the end of the 64x64 one. *)
Remark neighbours_one_padding_apart :
  fst (fst (pack_images sprites3 256 2)) !! "a.png" = Some (2, 2) /\
  fst (fst (pack_images sprites3 256 2)) !! "b.png" = Some (2 + 64 + 2, 2).
Proof. vm_compute. split; reflexivity. Qed.

(** ** The sheet contains every sprite *)

Lemma sheet_dims_ge sheet_w sheet_h pot :
  sheet_w <= fst (sheet_dims sheet_w sheet_h pot) /\
  sheet_h <= snd (sheet_dims sheet_w sheet_h pot).
Proof.
  unfold sheet_dims. destruct pot; simpl; [| lia].
  split; apply next_power_of_two_ge.
Qed.




Lemma paste_step_Some positions acc e xy :
  positions !! fst e = Some xy ->
  paste_step positions (Ok acc) e = Ok (acc ++ [(snd e, xy)]).
Proof. intros H. unfold paste_step, getitem. rewrite H. reflexivity. Qed.


(** All pastes find their placement: the loop of [create_sheet] pastes
    every image once, in order, at the placement under its name. *)
Lemma paste_loop_spec positions images acc :
  Forall (fun e => is_Some (positions !! fst e)) images ->
  exists ps,
    fold_left (paste_step positions) images (Ok acc) = Ok (acc ++ ps) /\
    Forall2 (fun e p => fst p = snd e /\ positions !! fst e = Some (snd p)) images ps.
Proof.
  revert acc. induction images as [| e images IH]; intros acc Hall.
  - exists []. rewrite app_nil_r. split; [reflexivity | constructor].
  - apply Forall_cons in Hall as [[xy Hxy] Hall]. cbn [fold_left].
    rewrite (paste_step_Some _ _ _ _ Hxy).
    destruct (IH (acc ++ [(snd e, xy)]) Hall) as (ps & -> & Hps).
    exists ((snd e, xy) :: ps). rewrite <- app_assoc. split; [reflexivity |].
    constructor; [split; [reflexivity | exact Hxy] | exact Hps].
Qed.

Lemma create_sheet_negative w images positions sheet_w sheet_h output pot :
  fst (sheet_dims sheet_w sheet_h pot) < 0 \/ snd (sheet_dims sheet_w sheet_h pot) < 0 ->
  create_sheet w images positions sheet_w sheet_h output pot = Raise ValueError_size.
Proof.
  intros Hneg. unfold create_sheet.
  destruct (Z.ltb_spec (fst (sheet_dims sheet_w sheet_h pot)) 0);
    destruct (Z.ltb_spec (snd (sheet_dims sheet_w sheet_h pot)) 0); simpl; try reflexivity.
  lia.
Qed.

(** With a size [Image.new] accepts and a placement for every name,
    [create_sheet] builds one sheet, and returns it unless the save
    raises. *)
Lemma create_sheet_spec w images positions sheet_w sheet_h output pot :
  Forall (fun e => is_Some (positions !! fst e)) images ->
  0 <= fst (sheet_dims sheet_w sheet_h pot) ->
  0 <= snd (sheet_dims sheet_w sheet_h pot) ->
  exists s,
    create_sheet w images positions sheet_w sheet_h output pot
      = match save_image w output s with
        | Some err => Raise (SaveError err)
        | None => Ok (s, sheet_dims sheet_w sheet_h pot)
        end /\
    sheet_size s = sheet_dims sheet_w sheet_h pot /\
    Forall2 (fun e p => fst p = snd e /\ positions !! fst e = Some (snd p))
            images (pastes s).
Proof.
  intros Hall Hw Hh. unfold create_sheet.
  destruct (Z.ltb_spec (fst (sheet_dims sheet_w sheet_h pot)) 0); [lia |].
  destruct (Z.ltb_spec (snd (sheet_dims sheet_w sheet_h pot)) 0); [lia |].
  destruct (paste_loop_spec positions images [] Hall) as (ps & -> & Hps).
  cbn [orb bind app].
  exists (Sheet (sheet_dims sheet_w sheet_h pot) ps).
  split; [reflexivity |]. split; [reflexivity | exact Hps].
Qed.

Lemma pack_images_all_placed images max_width padding :
  Forall (fun e => is_Some (fst (fst (pack_images images max_width padding)) !! fst e)) images.
Proof.
  apply Forall_forall. intros e He. rewrite pack_images_positions.
  apply positions_is_Some. unfold names. apply list_elem_of_fmap. eauto.
Qed.



(** ** pack_images against the algorithm of the specification *)

Section Refinement.
Variables (max_width padding : Z).

Local Abbreviation srun := (ShelfSpec.run max_width padding).
Local Abbreviation sim := (sim padding).

Lemma run_deterministic c images ps1 c1 :
srun c images ps1 c1 ->
forall ps2 c2, srun c images ps2 c2 -> ps2 = ps1 /\ c2 = c1.
Proof.
induction 1 as [c | c name img rest ps c' Hfit _ IH | c name img rest ps c' Hwrap _ IH];
  intros ps2 c2 Hrun; inversion Hrun; subst; try lia.
- auto.
- destruct (IH _ _ ltac:(eassumption)) as [-> ->]. auto.
- destruct (IH _ _ ltac:(eassumption)) as [-> ->]. auto.
Qed.

Lemma pack_loop_run images :
forall st c, sim st c ->
exists ps c',
  srun c images ps c' /\
  sim (pack_loop max_width padding st images) c' /\
  pk_positions (pack_loop max_width padding st images)
    = fold_left (fun m e => <[fst e := snd e]> m) ps (pk_positions st) /\
  ShelfSpec.widest c' = fold_left Z.max (widths images) (ShelfSpec.widest c).
Proof.
induction images as [| [name img] images IH]; intros st c Hsim.
- exists [], c. repeat split; try apply Hsim. constructor.
- destruct Hsim as (Hx & Hy & Hr & He).
  pose proof (pack_step_cases max_width padding st (name, img)) as Hc.
  pose proof (pack_step_positions max_width padding st (name, img)) as Hp.
  cbv zeta in Hc. simpl fst in Hc, Hp. simpl snd in Hc.
  rewrite pack_loop_cons.
  destruct Hc as [(Hfit & Hpl & Hx' & Hy' & Hr' & Hm') | (Hwrap & Hpl & Hx' & Hy' & Hr' & Hm')].
  + destruct (IH (pack_step max_width padding st (name, img)) (ShelfSpec.advance padding c img))
      as (ps & c' & Hrun & Hsim' & Hpos & Hwd).
    { unfold sim, ShelfSpec.advance, ShelfSpec.new_row.
      cbn [ShelfSpec.cx ShelfSpec.cy ShelfSpec.row_h ShelfSpec.extent].
      rewrite Hx', Hy', Hr', Hm'. lia. }
    exists ((name, (ShelfSpec.cx c, ShelfSpec.cy c)) :: ps), c'.
    split; [apply ShelfSpec.run_fit; [lia | exact Hrun] |].
    split; [exact Hsim' |]. split; [| exact Hwd].
    rewrite Hpos, Hp, Hpl, <- Hx, <- Hy. reflexivity.
  + destruct (IH (pack_step max_width padding st (name, img))
                 (ShelfSpec.advance padding (ShelfSpec.new_row padding c) img))
      as (ps & c' & Hrun & Hsim' & Hpos & Hwd).
    { unfold sim, ShelfSpec.advance, ShelfSpec.new_row.
      cbn [ShelfSpec.cx ShelfSpec.cy ShelfSpec.row_h ShelfSpec.extent].
      rewrite Hx', Hy', Hr', Hm'. lia. }
    exists ((name, (ShelfSpec.cx (ShelfSpec.new_row padding c),
                    ShelfSpec.cy (ShelfSpec.new_row padding c))) :: ps), c'.
    split; [apply ShelfSpec.run_wrap; [lia | exact Hrun] |].
    split; [exact Hsim' |]. split; [| exact Hwd].
    rewrite Hpos, Hp, Hpl, <- Hy, <- Hr, <- Z.add_assoc. reflexivity.
Qed.
End Refinement.

Lemma fold_left_max_ge l a : a <= fold_left Z.max l a.
Proof.
  revert a. induction l as [| x l IH]; intros a; simpl; [lia |].
  specialize (IH (Z.max a x)). lia.
Qed.

(** For images of non-negative width, the largest width with default 0
    is the largest of 0 and the widths. *)
Lemma max_default_widths images :
  wf_images images ->
  max_default (widths images) 0 = fold_left Z.max (widths images) 0.
Proof.
  destruct images as [| e images]; [reflexivity |].
  intros Hwf. apply Forall_cons in Hwf as [[Hw _] _].
  simpl. rewrite Z.max_r by lia. reflexivity.
Qed.

(** C4: [pack_images] computes the run of the specified shelf algorithm:
    the cursor starts at [(padding, padding)], a row is wrapped exactly
    when [x + width + padding > max_width], and the returned width and
    height are [max(row extent, largest width + 2*padding)] and
    [y + row height + padding]. *)
Theorem pack_images_refines_spec images max_width padding :
  0 <= padding -> wf_images images ->
  exists ps c,
    ShelfSpec.run max_width padding (ShelfSpec.start padding) images ps c /\
    (forall ps' c',
        ShelfSpec.run max_width padding (ShelfSpec.start padding) images ps' c' ->
        ps' = ps /\ c' = c) /\
    pack_images images max_width padding =
      (ShelfSpec.record_all ps, ShelfSpec.final_width padding c,
       ShelfSpec.final_height padding c).
Proof.
  intros Hpad Hwf.
  destruct (pack_loop_run max_width padding images (pack_init padding) (ShelfSpec.start padding))
    as (ps & c & Hrun & (Hx & Hy & Hr & He) & Hpos & Hwd).
  { unfold sim. simpl. lia. }
  exists ps, c. split; [exact Hrun |].
  split; [apply (run_deterministic _ _ _ _ _ _ Hrun) |].
  unfold pack_images, ShelfSpec.record_all, ShelfSpec.final_width, ShelfSpec.final_height.
  rewrite Hpos, He, Hwd, Hy, Hr, (max_default_widths images Hwf).
  pose proof (fold_left_max_ge (widths images) 0).
  cbn [ShelfSpec.widest ShelfSpec.start pk_positions pack_init].
  f_equal. f_equal. lia.
Qed.

Lemma pack_images_refines_spec_witness :
  exists ps c,
    ShelfSpec.run 256 2 (ShelfSpec.start 2) sprites3 ps c /\
    (forall ps' c',
        ShelfSpec.run 256 2 (ShelfSpec.start 2) sprites3 ps' c' -> ps' = ps /\ c' = c) /\
    pack_images sprites3 256 2 =
      (ShelfSpec.record_all ps, ShelfSpec.final_width 2 c, ShelfSpec.final_height 2 c).
Proof.
  apply (pack_images_refines_spec sprites3 256 2).
  - lia.
  - exact sprites3_wf.
Defined.

(** ** collect_images *)

Lemma collect_loop w files msgs images :
  fold_left (collect_step w) files (msgs, images) =
  (msgs ++ omap (skipped w) files, images ++ omap (decoded w) files).
Proof.
  revert msgs images. induction files as [| f files IH]; intros msgs images.
  - simpl. rewrite !app_nil_r. reflexivity.
  - cbn [fold_left].
    destruct (open_image w f) as [err | img] eqn:Ho.
    + assert (collect_step w (msgs, images) f = (msgs ++ [MsgSkipping f err], images)) as ->
        by (unfold collect_step; rewrite Ho; reflexivity).
      assert (skipped w f = Some (MsgSkipping f err)) as Hs by (unfold skipped; rewrite Ho; reflexivity).
      assert (decoded w f = None) as Hd by (unfold decoded; rewrite Ho; reflexivity).
      rewrite IH. cbn [omap list_omap]. rewrite Hs, Hd, <- app_assoc. reflexivity.
    + assert (collect_step w (msgs, images) f = (msgs, images ++ [(f, img)])) as ->
        by (unfold collect_step; rewrite Ho; reflexivity).
      assert (skipped w f = None) as Hs by (unfold skipped; rewrite Ho; reflexivity).
      assert (decoded w f = Some (f, img)) as Hd by (unfold decoded; rewrite Ho; reflexivity).
      rewrite IH. cbn [omap list_omap]. rewrite Hs, Hd, <- app_assoc. reflexivity.
Qed.

(** A file that fails to decode costs one message and nothing else: the
    loop goes on with the files after it. *)
Lemma collect_images_eq w :
  collect_images w = (omap (skipped w) (files_of w), omap (decoded w) (files_of w)).
Proof. unfold collect_images, files_of. apply collect_loop. Qed.

Lemma filter_has_ext_perm (l1 l2 : list string) :
  l1 ≡ₚ l2 -> List.filter has_ext l1 ≡ₚ List.filter has_ext l2.
Proof.
  induction 1 as [| x l1 l2 _ IH | x y l | l1 l2 l3 _ IH1 _ IH2]; simpl.
  - reflexivity.
  - destruct (has_ext x); [constructor |]; exact IH.
  - destruct (has_ext x), (has_ext y); try reflexivity. constructor.
  - etransitivity; eassumption.
Qed.

(** Sorting makes the order of the listing irrelevant. *)
Lemma files_of_perm w1 w2 :
  listdir w1 ≡ₚ listdir w2 -> files_of w1 = files_of w2.
Proof.
  intros Hperm. unfold files_of.
  apply (Sorted_unique String.le).
  - apply Sorted_merge_sort; apply _.
  - apply Sorted_merge_sort; apply _.
  - rewrite !merge_sort_Permutation. apply filter_has_ext_perm, Hperm.
Qed.

Lemma collect_images_perm w1 w2 :
  listdir w1 ≡ₚ listdir w2 ->
  (forall f, open_image w1 f = open_image w2 f) ->
  collect_images w1 = collect_images w2.
Proof.
  intros Hperm Hopen. rewrite !collect_images_eq, (files_of_perm w1 w2 Hperm).
  f_equal; apply list_omap_ext; try reflexivity.
  - apply Forall2_same_length_lookup_2; [reflexivity |].
    intros i x y Hx Hy. rewrite Hx in Hy. injection Hy as <-.
    unfold skipped. rewrite Hopen. reflexivity.
  - apply Forall2_same_length_lookup_2; [reflexivity |].
    intros i x y Hx Hy. rewrite Hx in Hy. injection Hy as <-.
    unfold decoded. rewrite Hopen. reflexivity.
Qed.

(** The collected names are the decodable files among [files_of], so a
    listing without repetition gives distinctly named images. *)
Lemma decoded_names_sublist w files :
  names (omap (decoded w) files) `sublist_of` files.
Proof.
  induction files as [| f files IH]; [constructor |].
  cbn [omap list_omap]. unfold decoded at 1.
  destruct (open_image w f); simpl; [apply sublist_cons | apply sublist_skip]; exact IH.
Qed.

Lemma collect_images_NoDup w :
  NoDup (listdir w) -> NoDup (names (snd (collect_images w))).
Proof.
  intros Hnd. rewrite collect_images_eq. cbn [snd].
  apply (sublist_NoDup _ (files_of w)); [| apply decoded_names_sublist].
  unfold files_of. rewrite merge_sort_Permutation.
  apply NoDup_ListNoDup, List.NoDup_filter, NoDup_ListNoDup, Hnd.
Qed.

Lemma collect_images_wf w :
  (forall f img, open_image w f = inr img -> wf_image img) ->
  wf_images (snd (collect_images w)).
Proof.
  intros Hopen. rewrite collect_images_eq. cbn [snd].
  apply Forall_forall. intros [f img] Hin.
  apply list_elem_of_omap in Hin as (f' & _ & Hdec).
  unfold decoded in Hdec. destruct (open_image w f') as [| img'] eqn:Ho; [discriminate |].
  injection Hdec as <- <-. simpl. eapply Hopen, Ho.
Qed.

(** ** build_json and main never raise *)

Lemma frames_loop_ok positions images acc :
  Forall (fun e => is_Some (positions !! fst e)) images ->
  exists frames, fold_left (frames_step positions) images (Ok acc) = Ok frames.
Proof.
  revert acc. induction images as [| e images IH]; intros acc Hall; cbn [fold_left]; [eauto |].
  apply Forall_cons in Hall as [[xy Hxy] Hall].
  assert (exists acc', frames_step positions (Ok acc) e = Ok acc') as [acc' ->].
  { unfold frames_step, getitem. rewrite Hxy. simpl. eauto. }
  apply IH, Hall.
Qed.

Lemma build_frames_ok positions images :
  Forall (fun e => is_Some (positions !! fst e)) images ->
  exists frames, build_frames images positions = Ok frames.
Proof. apply frames_loop_ok. Qed.

Lemma max_of_nonempty (xs : list Z) : xs <> [] -> exists m, max_of xs = Some m.
Proof. destruct xs; [congruence | simpl; eauto]. Qed.

Lemma max_of_default xs m d : max_of xs = Some m -> max_default xs d = m.
Proof. destruct xs; simpl; congruence. Qed.

Lemma fold_left_max_elem l a x : x ∈ l -> x <= fold_left Z.max l a.
Proof.
  revert a. induction l as [| y l IH]; intros a Hin; [inversion Hin |]. simpl.
  apply elem_of_cons in Hin as [-> | Hin].
  - pose proof (fold_left_max_ge l (Z.max a y)). lia.
  - apply IH, Hin.
Qed.

Lemma max_of_ge xs m x : max_of xs = Some m -> x ∈ xs -> x <= m.
Proof.
  destruct xs as [| y xs]; [discriminate |]. simpl. intros [= <-] Hin.
  apply elem_of_cons in Hin as [-> | Hin].
  - apply fold_left_max_ge.
  - apply fold_left_max_elem, Hin.
Qed.

Lemma main_missing w a :
  isdir w = false ->
  main w a = Outcome (SysExit 1) [MsgInputNotFound (arg_input a)] [].
Proof. intros H. unfold main. rewrite H. reflexivity. Qed.

Lemma main_empty w a :
  isdir w = true -> snd (collect_images w) = [] ->
  main w a = Outcome (SysExit 1) (fst (collect_images w) ++ [MsgNoImages]) [].
Proof.
  intros Hdir Hnil. unfold main. rewrite Hdir. simpl.
  destruct (collect_images w) as [msgs images]. simpl in Hnil. subst images. reflexivity.
Qed.

(** With a directory and at least one decoded image, neither [max] nor
    a lookup of [positions] raises, and [main] ends in one of four ways:
    on [Image.new] refusing a negative size, on the save, on the write
    of the atlas, or normally. *)
Lemma main_runs w a :
  isdir w = true -> snd (collect_images w) <> [] ->
  let images := snd (collect_images w) in
  let msgs := fst (collect_images w) in
  exists m frames,
    max_of (widths images) = Some m /\
    let packed := pack_images images
                    (effective_max_width (arg_width a) m (arg_padding a)) (arg_padding a) in
    let dims := sheet_dims (snd (fst packed)) (snd packed) (arg_pot a) in
    let atlas := JObj [("frames", JObj frames);
                       ("meta", build_meta (fst dims) (snd dims) (basename (arg_output a)))] in
    build_frames images (fst (fst packed)) = Ok frames /\
    (((fst dims < 0 \/ snd dims < 0) /\
      main w a = Outcome (Uncaught ValueError_size) msgs [])
     \/
     (0 <= fst dims /\ 0 <= snd dims /\
      exists s,
        sheet_size s = dims /\
        Forall2 (fun e p => fst p = snd e /\ fst (fst packed) !! fst e = Some (snd p))
                images (pastes s) /\
        main w a =
          match save_image w (arg_output a) s with
          | Some err => Outcome (Uncaught (SaveError err)) msgs []
          | None =>
            match dump_json w (arg_json a) atlas with
            | Some err =>
              Outcome (Uncaught (DumpError err)) msgs [SavedImage (arg_output a) s]
            | None =>
              Outcome Returned
                (msgs ++ [MsgCreated (arg_output a) (fst dims) (snd dims) (arg_json a)
                                     (length images)])
                [SavedImage (arg_output a) s; DumpedJson (arg_json a) atlas]
            end
          end)).
Proof.
  intros Hdir Hne. cbv zeta. unfold main. rewrite Hdir. simpl negb. cbv iota.
  destruct (collect_images w) as [msgs images]. cbn [fst snd] in *.
  destruct images as [| e images]; [congruence |].
  destruct (max_of_nonempty (widths (e :: images))) as [m Hm]; [discriminate |].
  rewrite Hm. exists m.
  set (mw := effective_max_width (arg_width a) m (arg_padding a)).
  pose proof (pack_images_all_placed (e :: images) mw (arg_padding a)) as Hall.
  destruct (pack_images (e :: images) mw (arg_padding a)) as [[positions sheet_w] sheet_h].
  cbn [fst snd] in *.
  destruct (build_frames_ok positions (e :: images) Hall) as [frames Hf].
  exists frames. split; [reflexivity |]. split; [exact Hf |].
  destruct (Z_lt_le_dec (fst (sheet_dims sheet_w sheet_h (arg_pot a))) 0) as [Hw | Hw];
    [| destruct (Z_lt_le_dec (snd (sheet_dims sheet_w sheet_h (arg_pot a))) 0) as [Hh | Hh]].
  - left. split; [left; exact Hw |].
    rewrite create_sheet_negative by (left; exact Hw). reflexivity.
  - left. split; [right; exact Hh |].
    rewrite create_sheet_negative by (right; exact Hh). reflexivity.
  - right. split; [exact Hw |]. split; [exact Hh |].
    destruct (create_sheet_spec w (e :: images) positions sheet_w sheet_h (arg_output a)
                (arg_pot a) Hall Hw Hh) as (s & -> & Hsz & Hps).
    exists s. split; [exact Hsz |]. split; [exact Hps |].
    destruct (save_image w (arg_output a) s); [reflexivity |].
    destruct (sheet_dims sheet_w sheet_h (arg_pot a)) as [final_w final_h]. cbn [fst snd].
    unfold build_json. rewrite Hf. cbn [bind].
    destruct (dump_json w (arg_json a) _); reflexivity.
Qed.


(** ** Exit status *)


(** Two more runs with a directory and three decoded images that end
    with status 1: at padding -100 [Image.new] refuses the size
    (0, -184) and nothing is written; when the atlas cannot be written
    the sheet has been saved already. *)
Remark exit_1_other_ways :
  main world_abc (Args "jason" "s.png" "s.json" 256 (-100) false)
  = Outcome (Uncaught ValueError_size) [] [] /\
  status (main world_nojson args_abc) = Uncaught (DumpError "Permission denied") /\
  exists s, written (main world_nojson args_abc) = [SavedImage "s.png" s].
Proof.
  split; [vm_compute; reflexivity |]. split; [vm_compute; reflexivity |].
  eexists. vm_compute. reflexivity.
Qed.




(** ** Determinism *)

(** C9: two runs on the same files and flags, whatever the order in
    which the system lists the directory, collect the same images in the
    same order, and print and write the same things. *)
Theorem main_deterministic w1 w2 a :
  isdir w1 = isdir w2 ->
  listdir w1 ≡ₚ listdir w2 ->
  (forall f, open_image w1 f = open_image w2 f) ->
  (forall path s, save_image w1 path s = save_image w2 path s) ->
  (forall path atlas, dump_json w1 path atlas = dump_json w2 path atlas) ->
  collect_images w1 = collect_images w2 /\ main w1 a = main w2 a.
Proof.
  intros Hdir Hperm Hopen Hsave Hdump.
  pose proof (collect_images_perm w1 w2 Hperm Hopen) as Hc.
  split; [exact Hc |].
  unfold main, create_sheet. rewrite Hdir, Hc.
  destruct (negb (isdir w2)); [reflexivity |].
  destruct (collect_images w2) as [msgs images].
  destruct images as [| e images]; [reflexivity |].
  destruct (max_of _); [| reflexivity].
  destruct (pack_images _ _ _) as [[positions sheet_w] sheet_h].
  destruct (_ || _); [reflexivity |].
  destruct (fold_left _ _ _) as [ps |]; [| reflexivity].
  cbn [bind]. rewrite Hsave.
  destruct (save_image w2 _ _); [reflexivity |].
  destruct (sheet_dims _ _ _) as [final_w final_h].
  destruct (build_json _ _ _ _ _); [| reflexivity].
  rewrite Hdump. reflexivity.
Qed.

Lemma main_deterministic_witness :
  collect_images world_abc = collect_images world_cab /\
  main world_abc (Args "jason" "s.png" "s.json" 256 2 true)
  = main world_cab (Args "jason" "s.png" "s.json" 256 2 true).
Proof.
  apply (main_deterministic world_abc world_cab).
  - reflexivity.
  - simpl. apply (bool_decide_unpack _). vm_compute. exact I.
  - intros f. reflexivity.
  - intros path s. reflexivity.
  - intros path atlas. reflexivity.
Defined.

(** ** Power-of-two rounding leaves the frames alone *)


(** What a run that saved a sheet, and one that wrote an atlas, went
    through. *)
Lemma sheet_of_main w a s :
  sheet_of (main w a) = Some s ->
  isdir w = true /\ snd (collect_images w) <> [] /\
  exists m frames,
    max_of (widths (snd (collect_images w))) = Some m /\
    let packed := pack_images (snd (collect_images w))
                    (effective_max_width (arg_width a) m (arg_padding a)) (arg_padding a) in
    let dims := sheet_dims (snd (fst packed)) (snd packed) (arg_pot a) in
    let atlas := JObj [("frames", JObj frames);
                       ("meta", build_meta (fst dims) (snd dims) (basename (arg_output a)))] in
    sheet_size s = dims /\
    Forall2 (fun e p => fst p = snd e /\ fst (fst packed) !! fst e = Some (snd p))
            (snd (collect_images w)) (pastes s) /\
    build_frames (snd (collect_images w)) (fst (fst packed)) = Ok frames /\
    main w a =
      match dump_json w (arg_json a) atlas with
      | Some err =>
        Outcome (Uncaught (DumpError err)) (fst (collect_images w))
                [SavedImage (arg_output a) s]
      | None =>
        Outcome Returned
          (fst (collect_images w)
             ++ [MsgCreated (arg_output a) (fst dims) (snd dims) (arg_json a)
                            (length (snd (collect_images w)))])
          [SavedImage (arg_output a) s; DumpedJson (arg_json a) atlas]
      end.
Proof.
  intros Hs.
  destruct (isdir w) eqn:Hdir; [| rewrite (main_missing w a Hdir) in Hs; discriminate].
  destruct (snd (collect_images w)) as [| e images] eqn:Himgs;
    [rewrite (main_empty w a Hdir Himgs) in Hs; discriminate |].
  assert (snd (collect_images w) <> []) as Hne by (rewrite Himgs; discriminate).
  split; [reflexivity |]. split; [discriminate |].
  destruct (main_runs w a Hdir Hne) as (m & frames & Hm & Hrun).
  rewrite Himgs in Hm, Hrun. cbv zeta in Hrun. destruct Hrun as (Hfr & Hrun).
  exists m, frames. split; [exact Hm |]. cbv zeta.
  destruct Hrun as [(_ & Hmain) | (_ & _ & s0 & Hsz & Hps & Hmain)];
    [rewrite Hmain in Hs; discriminate |].
  destruct (save_image w (arg_output a) s0); [rewrite Hmain in Hs; discriminate |].
  assert (s0 = s) as ->.
  { rewrite Hmain in Hs. destruct (dump_json w _ _); injection Hs as ->; reflexivity. }
  split; [exact Hsz |]. split; [exact Hps |]. split; [exact Hfr | exact Hmain].
Qed.



(** At padding -100 the sheet would be 0 by -184: without [--pot]
    [Image.new] refuses it, with [--pot] it is rounded to 1 by 1 and the
    run returns. *)
Remark pot_at_negative_padding :
  status (main world_abc (Args "jason" "s.png" "s.json" 256 (-100) false))
  = Uncaught ValueError_size /\
  status (main world_abc (Args "jason" "s.png" "s.json" 256 (-100) true)) = Returned.
Proof. split; vm_compute; reflexivity. Qed.



(** ** The three-image scenario *)

(** C3, as the specification has it: the sheet of the scenario would be
    256 wide.  It is not. *)
Lemma scenario_width_not_256 :
  ~ (let '(positions, total_width, total_height) := pack_images sprites3 256 2 in
     positions !! "a.png" = Some (2, 2) /\
     positions !! "b.png" = Some (68, 2) /\
     positions !! "c.png" = Some (2, 68) /\
     total_width = 256 /\ total_height = 198).
Proof.
  intros H. vm_compute in H. destruct H as (_ & _ & _ & Hw & _). discriminate Hw.
Qed.

(** C3, amended: images of 64x64, 128x64 and 64x128, in this order, with
    row width 256 and padding 2, go to (2,2), (68,2) and (2,68); the
    sheet returned is 198 wide (the extent of the first row) and 198
    high. *)
Theorem scenario_three_images n1 n2 n3 px1 px2 px3 :
  pack_images [(n1, Image (64, 64) px1); (n2, Image (128, 64) px2); (n3, Image (64, 128) px3)]
              256 2
  = (<[n3 := (2, 68)]> (<[n2 := (68, 2)]> (<[n1 := (2, 2)]> ∅)), 198, 198).
Proof. reflexivity. Qed.

(** ** Power-of-two rounding *)



(** ** Widening the row width *)

Lemma pack_images_width_bounded images max_width padding :
  0 <= padding -> wf_images images ->
  Forall (fun e => padding + img_w (snd e) + padding <= max_width) images ->
  max_default (widths images) 0 + 2 * padding <= max_width ->
  snd (fst (pack_images images max_width padding)) <= max_width.
Proof.
  intros Hpad Hwf Hfit Hmax. unfold pack_images. cbn [fst snd].
  assert (pk_max_row_w (pack_loop max_width padding (pack_init padding) images) <= max_width).
  { apply pack_loop_bounded; [exact Hfit |]. simpl.
    rewrite max_default_widths in Hmax by exact Hwf.
    pose proof (fold_left_max_ge (widths images) 0). lia. }
  lia.
Qed.



(** Packed with the requested 512 instead, the same image would wrap on
    the empty first row and land one padding lower. *)
Remark unwidened_row_differs :
  fst (fst (pack_images [("wide.png", Image (3000, 40) [])] (3000 + 2 * 2) 2)) !! "wide.png"
  = Some (2, 2) /\
  fst (fst (pack_images [("wide.png", Image (3000, 40) [])] 512 2)) !! "wide.png"
  = Some (2, 4).
Proof. split; vm_compute; reflexivity. Qed.

(** ** One placement and one frame per sprite *)

(** The keys of the placement map are the file names. *)
Lemma pack_images_keys images max_width padding :
  dom (fst (fst (pack_images images max_width padding))) = list_to_set (names images).
Proof.
  rewrite pack_images_positions, positions_dom. simpl.
  rewrite dom_empty_L. apply (right_id_L ∅ (∪)).
Qed.

Lemma pack_images_size images max_width padding :
  NoDup (names images) ->
  size (fst (fst (pack_images images max_width padding))) = length images.
Proof.
  intros Hnd. rewrite <- size_dom, pack_images_keys, size_list_to_set by exact Hnd.
  unfold names. apply length_map.
Qed.

Lemma dict_set_fresh {V} k (v : V) d :
  k ∉ map fst d -> dict_set k v d = d ++ [(k, v)].
Proof.
  induction d as [| [k' v'] d IH]; intros Hnot; simpl; [reflexivity |].
  destruct (String.eqb_spec k' k) as [-> | Hne].
  - exfalso. apply Hnot. simpl. left.
  - rewrite IH; [reflexivity |]. intros Hin. apply Hnot. simpl. right. exact Hin.
Qed.

(** When no two file names share their stem, the frames are keyed by the
    stems, one per image and in the order of the images. *)
Lemma frames_loop_keys positions images acc frames :
  NoDup (map fst acc ++ map splitext_root (names images)) ->
  fold_left (frames_step positions) images (Ok acc) = Ok frames ->
  map fst frames = map fst acc ++ map splitext_root (names images).
Proof.
  revert acc. induction images as [| e images IH]; intros acc Hnd Hf.
  - simpl in *. injection Hf as <-. rewrite app_nil_r. reflexivity.
  - cbn [fold_left] in Hf.
    destruct (frames_step positions (Ok acc) e) as [acc' | err] eqn:Hstep.
    + unfold frames_step, getitem in Hstep. simpl in Hstep.
      destruct (positions !! fst e) as [xy |]; [| discriminate]. simpl in Hstep.
      injection Hstep as <-.
      simpl in Hnd. apply NoDup_app in Hnd as (Hacc & Hdisj & Hrest).
      apply NoDup_cons in Hrest as [Hfresh Hrest].
      rewrite dict_set_fresh in Hf.
      * apply IH in Hf.
        -- rewrite Hf, map_app, <- app_assoc. reflexivity.
        -- rewrite map_app, <- app_assoc. simpl.
           apply NoDup_app. repeat split; [exact Hacc | exact Hdisj |].
           apply NoDup_cons. split; assumption.
      * intros Hin. apply (Hdisj _ Hin). left.
    + exfalso. clear -Hf. induction images as [| e' images IH]; [discriminate |].
      apply IH. exact Hf.
Qed.

Lemma build_frames_keys positions images frames :
  NoDup (map splitext_root (names images)) ->
  build_frames images positions = Ok frames ->
  map fst frames = map splitext_root (names images).
Proof. intros Hnd Hf. apply (frames_loop_keys positions images [] frames); assumption. Qed.

(** C2 fails on the code: for a directory holding [a.jpg] and [a.png]
    both sprites are collected, placed and pasted, and the summary line
    counts 2 frames, but the atlas has the single frame ["a"], that of
    [a.png]. *)
Theorem frames_lose_sprite :
  let o := main world_stems (Args "jason" "spritesheet.png" "spritesheet.json" 2048 2 false) in
  names (snd (collect_images world_stems)) = ["a.jpg"; "a.png"] /\
  stdout o = [MsgCreated "spritesheet.png" 54 36 "spritesheet.json" 2] /\
  pastes_of o = Some [(Image (32, 32) [], (2, 2)); (Image (16, 16) [], (36, 2))] /\
  atlas_field "frames" o = Some (JObj [("a", frame_record 36 2 16 16)]).
Proof. vm_compute. repeat split; reflexivity. Qed.

(** * Further properties of the script *)

(** ** next_power_of_two: edge values, growth, idempotence *)

Lemma is_pow2_1 : is_pow2 1.
Proof. exists 0. split; [lia | reflexivity]. Qed.

Lemma is_pow2_pos m : is_pow2 m -> 1 <= m.
Proof. intros (k & Hk & ->). pose proof (Z.pow_pos_nonneg 2 k). lia. Qed.

(** X1: the loop body never runs for [n <= 1], zero and negative numbers
    included, and only then: the result is 1 exactly when [n <= 1]. *)
Theorem next_power_of_two_one n :
  next_power_of_two n = 1 <-> n <= 1.
Proof.
  split.
  - intros H. pose proof (next_power_of_two_ge n). lia.
  - intros H. apply Z.le_antisymm.
    + apply next_power_of_two_least; [exact is_pow2_1 | exact H].
    + apply is_pow2_pos, next_power_of_two_pow2.
Qed.

(** X2: rounding up to a power of two less than doubles a positive
    number. *)
Theorem next_power_of_two_lt_double n :
  0 < n -> next_power_of_two n < 2 * n.
Proof.
  intros Hn.
  destruct (next_power_of_two_spec n) as (j & Hj & -> & _ & [-> | Hlow]).
  - change (2 ^ 0) with 1. lia.
  - destruct (Z.eq_dec j 0) as [-> | Hne].
    + change (2 ^ 0) with 1. lia.
    + replace j with (Z.succ (j - 1)) at 1 by lia.
      rewrite Z.pow_succ_r by lia. lia.
Qed.

Lemma next_power_of_two_lt_double_witness : next_power_of_two 198 < 2 * 198.
Proof. apply (next_power_of_two_lt_double 198). lia. Defined.

(** X3: [next_power_of_two] is monotone. *)
Theorem next_power_of_two_mono n m :
  n <= m -> next_power_of_two n <= next_power_of_two m.
Proof.
  intros Hnm. apply next_power_of_two_least.
  - apply next_power_of_two_pow2.
  - pose proof (next_power_of_two_ge m). lia.
Qed.

Lemma next_power_of_two_mono_witness : next_power_of_two 54 <= next_power_of_two 198.
Proof. apply (next_power_of_two_mono 54 198). lia. Defined.

(** X4: rounding twice is rounding once, for every integer. *)
Theorem next_power_of_two_idem n :
  next_power_of_two (next_power_of_two n) = next_power_of_two n.
Proof. apply next_power_of_two_fix, next_power_of_two_pow2. Qed.

(** ** collect_images: which files, in which order *)

Lemma length_lower s : String.length (lower s) = String.length s.
Proof. induction s as [| c s IH]; simpl; [| rewrite IH]; reflexivity. Qed.

Lemma lower_app a b : lower (a ++ b)%string = (lower a ++ lower b)%string.
Proof. induction a as [| c a IH]; simpl; [| rewrite IH]; reflexivity. Qed.

Lemma length_string_app a b :
  String.length (a ++ b)%string = (String.length a + String.length b)%nat.
Proof. induction a as [| c a IH]; simpl; [| rewrite IH]; reflexivity. Qed.

Lemma substring_whole s : substring 0 (String.length s) s = s.
Proof. induction s as [| c s IH]; simpl; [| rewrite IH]; reflexivity. Qed.

Lemma substring_skip pre suf :
  substring (String.length pre) (String.length suf) (pre ++ suf)%string = suf.
Proof. induction pre as [| c pre IH]; simpl; [apply substring_whole | exact IH]. Qed.

Lemma substring_split a s :
  (a <= String.length s)%nat ->
  (substring 0 a s ++ substring a (String.length s - a) s)%string = s.
Proof.
  revert a. induction s as [| c s IH]; intros [| a] Ha; simpl in *; try lia.
  - reflexivity.
  - rewrite substring_whole. reflexivity.
  - change (String c (substring 0 a s ++ substring a (String.length s - a) s)%string
            = String c s).
    f_equal. apply IH. lia.
Qed.

(** [s.endswith(suffix)] holds exactly when [s] is something followed by
    [suffix]. *)
Lemma endswith_spec s suffix :
  endswith s suffix = true <-> exists pre, s = (pre ++ suffix)%string.
Proof.
  unfold endswith. rewrite andb_true_iff, Nat.leb_le, String.eqb_eq. split.
  - intros [Hle Hsub].
    exists (substring 0 (String.length s - String.length suffix) s).
    pose proof (substring_split (String.length s - String.length suffix) s) as Hsp.
    replace (String.length s - (String.length s - String.length suffix))%nat
      with (String.length suffix) in Hsp by lia.
    rewrite Hsub in Hsp. symmetry. apply Hsp. lia.
  - intros [pre ->]. rewrite length_string_app. split; [lia |].
    replace (String.length pre + String.length suffix - String.length suffix)%nat
      with (String.length pre) by lia.
    apply substring_skip.
Qed.

Lemma lower_eq_app f pre suffix :
  lower f = (pre ++ suffix)%string ->
  exists stem ext, f = (stem ++ ext)%string /\ lower stem = pre /\ lower ext = suffix.
Proof.
  revert f. induction pre as [| c pre IH]; intros f Hf.
  - exists EmptyString, f. auto.
  - destruct f as [| a f]; [discriminate |]. simpl in Hf. injection Hf as Hc Hf.
    destruct (IH f Hf) as (stem & ext & -> & Hs & He).
    exists (String a stem), ext. simpl. rewrite Hs, Hc. auto.
Qed.

(** X5: a file name passes the filter exactly when it ends with a suffix
    that is one of [.png], [.jpg], [.jpeg], [.webp] once its ASCII letters
    are lower-cased; what comes before the suffix does not matter. *)
Theorem has_ext_spec f :
  has_ext f = true <->
  exists stem ext, f = (stem ++ ext)%string /\ lower ext ∈ exts.
Proof.
  unfold has_ext. rewrite existsb_exists. split.
  - intros (suffix & Hin & Hend).
    apply endswith_spec in Hend as [pre Hpre].
    apply lower_eq_app in Hpre as (stem & ext & -> & _ & <-).
    exists stem, ext. split; [reflexivity |]. apply list_elem_of_In, Hin.
  - intros (stem & ext & -> & Hin).
    exists (lower ext). split; [apply list_elem_of_In, Hin |].
    apply endswith_spec. exists (lower stem). apply lower_app.
Qed.

Lemma files_of_elem w f :
  f ∈ files_of w <-> f ∈ listdir w /\ has_ext f = true.
Proof.
  unfold files_of. rewrite merge_sort_Permutation.
  rewrite !list_elem_of_In. apply List.filter_In.
Qed.

(** X6: the collected images are exactly the listed files that pass the
    extension filter and decode, each with its decoded image. *)
Theorem collect_images_elem w f img :
  (f, img) ∈ snd (collect_images w) <->
  f ∈ listdir w /\ has_ext f = true /\ open_image w f = inr img.
Proof.
  rewrite collect_images_eq. cbn [snd]. rewrite list_elem_of_omap. split.
  - intros (f' & Hin & Hdec). unfold decoded in Hdec.
    destruct (open_image w f') as [| img'] eqn:Ho; [discriminate |].
    injection Hdec as -> ->. apply files_of_elem in Hin as [? ?]. auto.
  - intros (Hin & Hext & Ho). exists f. split.
    + apply files_of_elem. auto.
    + unfold decoded. rewrite Ho. reflexivity.
Qed.

Lemma StronglySorted_sublist {A} (R : relation A) (l1 l2 : list A) :
  l1 `sublist_of` l2 -> StronglySorted R l2 -> StronglySorted R l1.
Proof.
  induction 1 as [| x l1 l2 Hsub IH | x l1 l2 Hsub IH]; intros Hs.
  - constructor.
  - apply StronglySorted_inv in Hs as [Hs Hall]. constructor; [apply IH, Hs |].
    apply Forall_forall. intros y Hy.
    apply (proj1 (Forall_forall _ _) Hall), (sublist_subseteq _ _ Hsub), Hy.
  - apply StronglySorted_inv in Hs as [Hs _]. apply IH, Hs.
Qed.

(** X7: the images come out in ascending order of file name (byte-wise
    comparison), whatever the order of the listing: each name is below or
    equal to every name after it. *)
Theorem collect_images_sorted w :
  StronglySorted String.le (names (snd (collect_images w))).
Proof.
  rewrite collect_images_eq. cbn [snd].
  apply (StronglySorted_sublist _ _ (files_of w)); [apply decoded_names_sublist |].
  unfold files_of. apply StronglySorted_merge_sort; apply _.
Qed.

Lemma length_omap_split w files :
  (length (omap (skipped w) files) + length (omap (decoded w) files))%nat = length files.
Proof.
  induction files as [| f files IH]; [reflexivity |].
  cbn [omap list_omap]. unfold skipped at 1, decoded at 1.
  destruct (open_image w f); simpl; lia.
Qed.

(** X8: every file that passes the filter is accounted for once, by an
    image or by a skip message; and each message names a listed file that
    passes the filter and whose decoding raised the quoted error. *)
Theorem collect_images_accounts w :
  (length (fst (collect_images w)) + length (snd (collect_images w)))%nat
    = length (List.filter has_ext (listdir w)) /\
  forall m, m ∈ fst (collect_images w) ->
    exists f err, m = MsgSkipping f err /\
                  f ∈ listdir w /\ has_ext f = true /\ open_image w f = inl err.
Proof.
  rewrite collect_images_eq. cbn [fst snd]. split.
  - rewrite length_omap_split. unfold files_of.
    apply Permutation_length, merge_sort_Permutation.
  - intros m Hm. apply list_elem_of_omap in Hm as (f & Hin & Hskip).
    unfold skipped in Hskip. destruct (open_image w f) as [err |] eqn:Ho; [| discriminate].
    injection Hskip as <-. apply files_of_elem in Hin as [? ?].
    exists f, err. auto.
Qed.

(** ** pack_images: margins, row width, first image, single row *)

Lemma row_span_nonneg padding images :
  0 <= padding -> wf_images images -> 0 <= row_span padding images.
Proof.
  intros Hpad Hwf. induction images as [| e images IH]; simpl; [lia |].
  apply Forall_cons in Hwf as [[Hw _] Hwf]. specialize (IH Hwf). lia.
Qed.

Lemma row_span_ge_width padding images e :
  0 <= padding -> wf_images images -> e ∈ images ->
  img_w (snd e) + padding <= row_span padding images.
Proof.
  intros Hpad Hwf Hin. induction images as [| e' images IH]; [inversion Hin |].
  apply Forall_cons in Hwf as [[Hw _] Hwf]. simpl.
  pose proof (row_span_nonneg padding images Hpad Hwf).
  apply elem_of_cons in Hin as [-> | Hin]; [lia |].
  specialize (IH Hwf Hin). lia.
Qed.

Lemma fold_left_max_le l a b :
  a <= b -> Forall (fun x => x <= b) l -> fold_left Z.max l a <= b.
Proof.
  revert a. induction l as [| x l IH]; intros a Ha Hall; simpl; [exact Ha |].
  apply Forall_cons in Hall as [Hx Hall]. apply IH; [lia | exact Hall].
Qed.

Section PackMore.
Variables (max_width padding : Z).
Hypothesis Hpad : 0 <= padding.

Local Abbreviation step := (pack_step max_width padding).
Local Abbreviation loop := (pack_loop max_width padding).
Local Abbreviation lay := (layout max_width padding).

(** No placement is left of the left margin or above the cursor row. *)
Lemma layout_margin st images i x y :
  wf_images images -> 0 <= pk_row_height st -> padding <= pk_x st ->
  lay st images !! i = Some (x, y) ->
  padding <= x /\ pk_y st <= y.
Proof.
  revert st i. induction images as [| e images IH]; intros st i Hwf Hrh Hx Hi; [discriminate |].
  apply Forall_cons in Hwf as [[Hw Hh] Hwf].
  pose proof (pack_step_cases max_width padding st e) as Hc; cbv zeta in Hc.
  pose proof (pack_step_row_height max_width padding st e Hh Hrh) as Hrh'.
  destruct i as [| i]; simpl in Hi.
  - injection Hi as Hi.
    destruct Hc as [(_ & Hp & _) | (_ & Hp & _)]; rewrite Hp in Hi; injection Hi as <- <-; lia.
  - apply IH in Hi; try assumption.
    + destruct Hc as [(_ & _ & _ & Hy' & _) | (_ & _ & _ & Hy' & _)]; rewrite Hy' in Hi; lia.
    + destruct Hc as [(_ & _ & Hx' & _) | (_ & _ & Hx' & _)]; rewrite Hx'; lia.
Qed.

(** The map holds, for a name that does not come again, the placement
    made when it was met. *)
Lemma positions_lookup_last st l1 e l2 :
  fst e ∉ names l2 ->
  pk_positions (loop st (l1 ++ e :: l2)) !! fst e = lay st (l1 ++ e :: l2) !! length l1.
Proof.
  intros Hnot. revert st. induction l1 as [| e1 l1 IH]; intros st.
  - simpl app. rewrite pack_loop_cons, positions_frame by exact Hnot.
    rewrite pack_step_positions. apply lookup_insert_eq.
  - simpl app. rewrite pack_loop_cons. simpl. apply IH.
Qed.

(** While the images fit the rest of the row, they follow one another on
    the cursor row. *)
Lemma single_row_loop st images :
  wf_images images ->
  pk_x st + row_span padding images <= max_width ->
  (forall i, (i < length images)%nat ->
     lay st images !! i = Some (pk_x st + row_span padding (take i images), pk_y st)) /\
  pk_x (loop st images) = pk_x st + row_span padding images /\
  pk_y (loop st images) = pk_y st /\
  pk_row_height (loop st images) = fold_left Z.max (heights images) (pk_row_height st) /\
  (pk_max_row_w st <= pk_x st -> images <> [] ->
   pk_max_row_w (loop st images) = pk_x st + row_span padding images).
Proof.
  revert st. induction images as [| e images IH]; intros st Hwf Hfit.
  - simpl. repeat split; try lia. congruence.
  - apply Forall_cons in Hwf as [[Hw Hh] Hwf].
    pose proof (row_span_nonneg padding images Hpad Hwf) as Hspan.
    simpl in Hfit.
    pose proof (pack_step_cases max_width padding st e) as Hc; cbv zeta in Hc.
    destruct Hc as [(_ & Hp & Hx' & Hy' & Hr' & Hm') | (Hwrap & _)]; [| lia].
    destruct (IH (step st e) Hwf) as (Hlay & Hxf & Hyf & Hrf & Hmf).
    { rewrite Hx'. lia. }
    rewrite pack_loop_cons. repeat split.
    + intros [| i] Hi; simpl.
      * rewrite Hp. f_equal. f_equal. lia.
      * rewrite Hlay by (simpl in Hi; lia). rewrite Hx', Hy'. f_equal. f_equal. lia.
    + rewrite Hxf, Hx'. simpl. lia.
    + rewrite Hyf, Hy'. reflexivity.
    + rewrite Hrf, Hr'. reflexivity.
    + intros Hm _. destruct images as [| e2 images].
      * unfold pack_loop, row_span. cbn [fold_left fold_right]. rewrite Hm'. lia.
      * rewrite Hmf; [rewrite Hx'; simpl; lia | rewrite Hm', Hx'; lia | discriminate].
Qed.
End PackMore.

Lemma pack_images_placed_within images max_width padding i e :
  0 <= padding -> wf_images images -> NoDup (names images) ->
  images !! i = Some e ->
  exists x y,
    fst (fst (pack_images images max_width padding)) !! fst e = Some (x, y) /\
    padding <= x /\ padding <= y /\
    x + img_w (snd e) + padding <= snd (fst (pack_images images max_width padding)) /\
    y + img_h (snd e) + padding <= snd (pack_images images max_width padding).
Proof.
  intros Hpad Hwf Hnd Hi.
  destruct (pack_images_lookup images max_width padding i e Hnd Hi) as ([x y] & Hp & Hl).
  exists x, y. split; [exact Hp |].
  pose proof (layout_margin max_width padding Hpad (pack_init padding) images i x y
                Hwf (Z.le_refl 0) (Z.le_refl padding) Hl) as [Hx Hy].
  pose proof (layout_within max_width padding Hpad (pack_init padding) images i e x y
                Hwf (Z.le_refl 0) Hi Hl) as Hin.
  cbv zeta in Hin. unfold pack_images. simpl in *. lia.
Qed.

(** X9: for [0 <= padding], every sprite keeps at least one padding to
    each of the four edges of the sheet the packer returns. *)
Theorem pack_images_margins images max_width padding i e :
  0 <= padding -> wf_images images -> NoDup (names images) ->
  images !! i = Some e ->
  exists x y,
    fst (fst (pack_images images max_width padding)) !! fst e = Some (x, y) /\
    padding <= x /\ padding <= y /\
    x + img_w (snd e) + padding <= snd (fst (pack_images images max_width padding)) /\
    y + img_h (snd e) + padding <= snd (pack_images images max_width padding).
Proof. apply pack_images_placed_within. Qed.

Lemma pack_images_margins_witness :
  exists x y,
    fst (fst (pack_images sprites3 256 2)) !! "c.png" = Some (x, y) /\
    2 <= x /\ 2 <= y /\
    x + 64 + 2 <= snd (fst (pack_images sprites3 256 2)) /\
    y + 128 + 2 <= snd (pack_images sprites3 256 2).
Proof.
  apply (pack_images_margins sprites3 256 2 2 ("c.png", Image (64, 128) [])).
  - lia.
  - exact sprites3_wf.
  - exact sprites3_NoDup.
  - reflexivity.
Defined.

(** X10: with the row width [main] computes, the sheet the packer returns
    is at least as wide as the widest image plus two paddings and at most
    as wide as that row width. *)
Theorem pack_images_width_range images width padding max_img_w :
  0 <= padding -> wf_images images ->
  max_of (widths images) = Some max_img_w ->
  let max_width := effective_max_width width max_img_w padding in
  max_img_w + 2 * padding <= snd (fst (pack_images images max_width padding)) /\
  snd (fst (pack_images images max_width padding)) <= max_width.
Proof.
  intros Hpad Hwf Hmax. cbv zeta. split.
  - unfold pack_images. cbn [fst snd]. rewrite (max_of_default _ _ 0 Hmax). lia.
  - apply pack_images_width_bounded; try assumption.
    + apply Forall_forall. intros e He.
      assert (img_w (snd e) <= max_img_w).
      { apply (max_of_ge (widths images)); [exact Hmax |].
        unfold widths. apply list_elem_of_fmap. eauto. }
      unfold effective_max_width. lia.
    + rewrite (max_of_default _ _ 0 Hmax). unfold effective_max_width. lia.
Qed.

Lemma pack_images_width_range_witness :
  128 + 2 * 2 <= snd (fst (pack_images sprites3 (effective_max_width 256 128 2) 2)) /\
  snd (fst (pack_images sprites3 (effective_max_width 256 128 2) 2))
    <= effective_max_width 256 128 2.
Proof.
  apply (pack_images_width_range sprites3 256 2 128).
  - lia.
  - exact sprites3_wf.
  - reflexivity.
Defined.

(** X11: the first image goes to [(padding, padding)] when it fits the
    row width with a padding on each side; when it does not, the wrap
    test fires on the empty first row and the image goes one padding
    lower, to [(padding, 2 * padding)]. *)
Theorem pack_images_first e rest max_width padding :
  fst e ∉ names rest ->
  (padding + img_w (snd e) + padding <= max_width ->
   fst (fst (pack_images (e :: rest) max_width padding)) !! fst e
   = Some (padding, padding)) /\
  (padding + img_w (snd e) + padding > max_width ->
   fst (fst (pack_images (e :: rest) max_width padding)) !! fst e
   = Some (padding, 2 * padding)).
Proof.
  intros Hnot. rewrite pack_images_positions, pack_loop_cons.
  rewrite positions_frame by exact Hnot. rewrite pack_step_positions, lookup_insert_eq.
  unfold placement. cbn [pk_x pk_y pk_row_height pack_init].
  destruct (Z.gtb_spec (padding + img_w (snd e) + padding) max_width); split; intros; try lia.
  - f_equal. f_equal. lia.
  - reflexivity.
Qed.

Lemma pack_images_first_witness :
  fst (fst (pack_images [("wide.png", Image (300, 10) []); ("b.png", Image (8, 8) [])] 256 2))
    !! "wide.png" = Some (2, 2 * 2).
Proof.
  apply (pack_images_first ("wide.png", Image (300, 10) []) [("b.png", Image (8, 8) [])] 256 2).
  - apply (bool_decide_unpack _). vm_compute. exact I.
  - unfold img_w. simpl. lia.
Defined.

Lemma max_default_heights images :
  wf_images images ->
  max_default (heights images) 0 = fold_left Z.max (heights images) 0.
Proof.
  destruct images as [| e images]; [reflexivity |].
  intros Hwf. apply Forall_cons in Hwf as [[_ Hh] _].
  simpl. rewrite Z.max_r by lia. reflexivity.
Qed.

(** X12: when all images fit one row, none is wrapped: the [i]-th image
    is at [y = padding], [x = padding] plus the widths and paddings of
    the images before it; the sheet is as wide as the row and as high as
    the tallest image plus two paddings. *)
Theorem pack_images_single_row images max_width padding :
  0 <= padding -> wf_images images -> NoDup (names images) -> images <> [] ->
  padding + row_span padding images <= max_width ->
  (forall i e, images !! i = Some e ->
     fst (fst (pack_images images max_width padding)) !! fst e
     = Some (padding + row_span padding (take i images), padding)) /\
  snd (fst (pack_images images max_width padding)) = padding + row_span padding images /\
  snd (pack_images images max_width padding)
    = padding + max_default (heights images) 0 + padding.
Proof.
  intros Hpad Hwf Hnd Hne Hfit.
  destruct (single_row_loop max_width padding Hpad (pack_init padding) images Hwf Hfit)
    as (Hlay & Hx & Hy & Hr & Hm).
  repeat split.
  - intros i e Hi.
    destruct (pack_images_lookup images max_width padding i e Hnd Hi) as (xy & -> & Hl).
    rewrite Hlay in Hl by (apply lookup_lt_Some in Hi; exact Hi).
    symmetry. exact Hl.
  - unfold pack_images. cbn [fst snd]. rewrite Hm; [| simpl; lia | exact Hne].
    cbn [pk_x pack_init].
    assert (max_default (widths images) 0 <= row_span padding images - padding); [| lia].
    rewrite max_default_widths by exact Hwf.
    apply fold_left_max_le.
    + destruct images as [| e images]; [congruence |].
      pose proof (row_span_ge_width padding (e :: images) e Hpad Hwf (list_elem_of_here _ _)).
      apply Forall_cons in Hwf as [[Hw _] _]. lia.
    + apply Forall_forall. intros x Hin. unfold widths in Hin.
      apply list_elem_of_fmap in Hin as (e & -> & He).
      pose proof (row_span_ge_width padding images e Hpad Hwf He). lia.
  - unfold pack_images. cbn [fst snd]. rewrite Hy, Hr.
    rewrite max_default_heights by exact Hwf. reflexivity.
Qed.

Lemma pack_images_single_row_witness :
  fst (fst (pack_images [("a.png", Image (64, 64) []); ("b.png", Image (128, 64) [])] 256 2))
    !! "b.png" = Some (2 + (64 + 2 + 0), 2) /\
  snd (fst (pack_images [("a.png", Image (64, 64) []); ("b.png", Image (128, 64) [])] 256 2))
    = 2 + (64 + 2 + (128 + 2 + 0)).
Proof.
  destruct (pack_images_single_row
              [("a.png", Image (64, 64) []); ("b.png", Image (128, 64) [])] 256 2)
    as (Hpos & Hw & _).
  - lia.
  - unfold wf_images, wf_image, img_w, img_h.
    repeat (apply Forall_cons; split; [simpl; lia |]). apply Forall_nil_2.
  - apply (bool_decide_unpack _). vm_compute. exact I.
  - discriminate.
  - vm_compute. discriminate.
  - split; [exact (Hpos 1%nat ("b.png", Image (128, 64) []) eq_refl) | exact Hw].
Defined.

(** X13: when a file name occurs more than once in the list, the map
    keeps for it the placement made at its last occurrence. *)
Theorem pack_images_last_wins l1 e l2 max_width padding :
  fst e ∉ names l2 ->
  fst (fst (pack_images (l1 ++ e :: l2) max_width padding)) !! fst e
  = layout max_width padding (pack_init padding) (l1 ++ e :: l2) !! length l1.
Proof. intros Hnot. rewrite pack_images_positions. apply positions_lookup_last, Hnot. Qed.

Lemma pack_images_last_wins_witness :
  fst (fst (pack_images ([("a.png", Image (64, 64) [])] ++ ("a.png", Image (8, 8) []) :: [])
                        256 2)) !! "a.png" = Some (68, 2).
Proof.
  etransitivity.
  - apply (pack_images_last_wins [("a.png", Image (64, 64) [])] ("a.png", Image (8, 8) []) []
             256 2).
    apply not_elem_of_nil.
  - reflexivity.
Defined.

(** ** create_sheet and build_json: pastes, frames, missing keys *)

Lemma frames_loop_raise positions images err :
  fold_left (frames_step positions) images (Raise err) = Raise err.
Proof. induction images as [| e images IH]; [reflexivity | exact IH]. Qed.

Lemma frames_step_Some positions acc e xy :
  positions !! fst e = Some xy ->
  frames_step positions (Ok acc) e =
  Ok (dict_set (splitext_root (fst e))
               (frame_record (fst xy) (snd xy) (img_w (snd e)) (img_h (snd e))) acc).
Proof. intros H. unfold frames_step, getitem. rewrite H. reflexivity. Qed.

Lemma frames_step_None positions acc e :
  positions !! fst e = None ->
  frames_step positions (Ok acc) e = Raise (KeyError (fst e)).
Proof. intros H. unfold frames_step, getitem. rewrite H. reflexivity. Qed.





Lemma jget_dict_set_eq k v d : jget k (JObj (dict_set k v d)) = Some v.
Proof.
  unfold jget. induction d as [| [k' v'] d IH]; simpl.
  - rewrite String.eqb_refl. reflexivity.
  - destruct (String.eqb k' k) eqn:Hk; simpl; rewrite Hk; [reflexivity | exact IH].
Qed.

Lemma jget_dict_set_ne k k' v d :
  k <> k' -> jget k' (JObj (dict_set k v d)) = jget k' (JObj d).
Proof.
  intros Hne. unfold jget. induction d as [| [k0 v0] d IH]; simpl.
  - apply String.eqb_neq in Hne. rewrite Hne. reflexivity.
  - destruct (String.eqb_spec k0 k) as [-> | Hk0]; simpl.
    + apply String.eqb_neq in Hne. rewrite Hne. reflexivity.
    + destruct (String.eqb k0 k'); [reflexivity | exact IH].
Qed.

Lemma find_app {A} (p : A -> bool) (l1 l2 : list A) :
  List.find p (l1 ++ l2) =
  match List.find p l1 with Some x => Some x | None => List.find p l2 end.
Proof.
  induction l1 as [| x l1 IH]; simpl; [reflexivity |].
  destruct (p x); [reflexivity | exact IH].
Qed.

Lemma last_with_stem_cons k e images :
  last_with_stem k (e :: images) =
  match last_with_stem k images with
  | Some x => Some x
  | None => if String.eqb (splitext_root (fst e)) k then Some e else None
  end.
Proof.
  unfold last_with_stem. simpl rev. rewrite find_app. simpl.
  destruct (List.find _ (rev images)); [reflexivity |].
  destruct (String.eqb _ k); reflexivity.
Qed.

Lemma frames_loop_lookup positions images k :
  forall acc frames,
  fold_left (frames_step positions) images (Ok acc) = Ok frames ->
  jget k (JObj frames) =
  match last_with_stem k images with
  | Some e => frame_of positions e
  | None => jget k (JObj acc)
  end.
Proof.
  induction images as [| e images IH]; intros acc frames Hf.
  - simpl in Hf. injection Hf as <-. reflexivity.
  - cbn [fold_left] in Hf. rewrite last_with_stem_cons.
    destruct (positions !! fst e) as [xy |] eqn:Hxy.
    + rewrite (frames_step_Some _ _ _ _ Hxy) in Hf. rewrite (IH _ _ Hf).
      destruct (last_with_stem k images); [reflexivity |].
      destruct (String.eqb_spec (splitext_root (fst e)) k) as [<- | Hne].
      * rewrite jget_dict_set_eq. unfold frame_of. rewrite Hxy. reflexivity.
      * apply jget_dict_set_ne, Hne.
    + rewrite (frames_step_None _ _ _ Hxy), frames_loop_raise in Hf. discriminate.
Qed.

(** X16: in the frames [build_json] builds, the entry under a name is
    the frame of the last image whose file name has that stem, with that
    image's placement and size; a name that is the stem of no file has no
    entry. *)
Theorem build_frames_lookup images positions frames k :
  build_frames images positions = Ok frames ->
  jget k (JObj frames) =
  match last_with_stem k images with
  | Some e => frame_of positions e
  | None => None
  end.
Proof. intros Hf. apply (frames_loop_lookup positions images k [] frames Hf). Qed.

Lemma build_frames_lookup_witness :
  jget "a" (JObj [("a", frame_record 36 2 16 16)]) = Some (frame_record 36 2 16 16).
Proof.
  rewrite (build_frames_lookup
             [("a.jpg", Image (32, 32) []); ("a.png", Image (16, 16) [])]
             (<["a.png" := (36, 2)]> (<["a.jpg" := (2, 2)]> ∅))
             [("a", frame_record 36 2 16 16)] "a").
  - reflexivity.
  - reflexivity.
Defined.

Lemma last_with_stem_None k images :
  k ∉ map splitext_root (names images) -> last_with_stem k images = None.
Proof.
  induction images as [| e images IH]; intros Hnot; [reflexivity |].
  rewrite last_with_stem_cons, IH.
  - destruct (String.eqb_spec (splitext_root (fst e)) k) as [Heq | _]; [| reflexivity].
    exfalso. apply Hnot. simpl. rewrite Heq. left.
  - intros Hin. apply Hnot. simpl. right. exact Hin.
Qed.

Lemma last_with_stem_unique images e :
  NoDup (map splitext_root (names images)) -> e ∈ images ->
  last_with_stem (splitext_root (fst e)) images = Some e.
Proof.
  induction images as [| e0 images IH]; intros Hnd Hin; [inversion Hin |].
  simpl in Hnd. apply NoDup_cons in Hnd as [Hfresh Hnd].
  rewrite last_with_stem_cons.
  apply elem_of_cons in Hin as [-> | Hin].
  - rewrite last_with_stem_None by exact Hfresh. rewrite String.eqb_refl. reflexivity.
  - rewrite IH by assumption. reflexivity.
Qed.

(** X17: when no two file names share a stem and every file name has a
    placement, each image is found in the frames under its stem, with
    its own placement and its own size. *)
Theorem build_frames_own_frame images positions frames fname img x y :
  NoDup (map splitext_root (names images)) ->
  build_frames images positions = Ok frames ->
  (fname, img) ∈ images ->
  positions !! fname = Some (x, y) ->
  jget (splitext_root fname) (JObj frames)
  = Some (frame_record x y (img_w img) (img_h img)).
Proof.
  intros Hnd Hf Hin Hxy.
  rewrite (frames_loop_lookup positions images _ [] frames Hf).
  pose proof (last_with_stem_unique images (fname, img) Hnd Hin) as Hl.
  cbn [fst] in Hl. rewrite Hl.
  unfold frame_of. cbn [fst snd]. rewrite Hxy. reflexivity.
Qed.

Lemma build_frames_own_frame_witness :
  jget (splitext_root "b.png")
       (JObj [("a", frame_record 2 2 64 64); ("b", frame_record 68 2 128 64)])
  = Some (frame_record 68 2 (img_w (Image (128, 64) [])) (img_h (Image (128, 64) []))).
Proof.
  apply (build_frames_own_frame
           [("a.png", Image (64, 64) []); ("b.png", Image (128, 64) [])]
           (<["b.png" := (68, 2)]> (<["a.png" := (2, 2)]> ∅))).
  - apply (bool_decide_unpack _). vm_compute. exact I.
  - reflexivity.
  - apply list_elem_of_further, list_elem_of_here.
  - reflexivity.
Defined.

Lemma dict_set_keys {V} k (v : V) d :
  forall k', k' ∈ map fst (dict_set k v d) <-> k' = k \/ k' ∈ map fst d.
Proof.
  intros k'. induction d as [| [k0 v0] d IH]; simpl.
  - rewrite list_elem_of_singleton. split; [auto | intros [? | H]; [auto | inversion H]].
  - destruct (String.eqb_spec k0 k) as [-> | Hne]; simpl.
    + rewrite elem_of_cons. tauto.
    + rewrite !elem_of_cons, IH. tauto.
Qed.

Lemma dict_set_NoDup {V} k (v : V) d :
  NoDup (map fst d) -> NoDup (map fst (dict_set k v d)).
Proof.
  induction d as [| [k0 v0] d IH]; intros Hnd; simpl.
  - apply NoDup_singleton.
  - simpl in Hnd. apply NoDup_cons in Hnd as [Hfresh Hnd].
    destruct (String.eqb_spec k0 k) as [-> | Hne]; simpl.
    + apply NoDup_cons. auto.
    + apply NoDup_cons. split; [| apply IH, Hnd].
      rewrite dict_set_keys. intros [? | ?]; [congruence | contradiction].
Qed.

Lemma dict_set_length {V} k (v : V) d :
  (length (dict_set k v d) <= S (length d))%nat.
Proof.
  induction d as [| [k0 v0] d IH]; simpl; [lia |].
  destruct (String.eqb k0 k); simpl; lia.
Qed.

Lemma frames_loop_keys_inv positions images :
  forall acc frames,
  fold_left (frames_step positions) images (Ok acc) = Ok frames ->
  NoDup (map fst acc) ->
  NoDup (map fst frames) /\
  (forall k, k ∈ map fst frames <->
             k ∈ map fst acc \/ k ∈ map splitext_root (names images)) /\
  (length frames <= length acc + length images)%nat.
Proof.
  induction images as [| e images IH]; intros acc frames Hf Hnd.
  - simpl in Hf. injection Hf as <-. repeat split; auto; simpl; try lia.
    + intros [? | H]; [assumption | inversion H].
  - cbn [fold_left] in Hf.
    destruct (positions !! fst e) as [xy |] eqn:Hxy.
    + rewrite (frames_step_Some _ _ _ _ Hxy) in Hf.
      destruct (IH _ _ Hf (dict_set_NoDup _ _ _ Hnd)) as (Hnd' & Hkeys & Hlen).
      split; [exact Hnd' |]. split.
      * intros k. rewrite Hkeys, dict_set_keys. simpl. rewrite elem_of_cons. tauto.
      * pose proof (dict_set_length (splitext_root (fst e))
                      (frame_record (fst xy) (snd xy) (img_w (snd e)) (img_h (snd e))) acc).
        simpl. lia.
    + rewrite (frames_step_None _ _ _ Hxy), frames_loop_raise in Hf. discriminate.
Qed.

(** X18: the frames [build_json] builds have pairwise distinct names,
    which are exactly the stems of the file names; so there are never
    more frames than images. *)
Theorem build_frames_names images positions frames :
  build_frames images positions = Ok frames ->
  NoDup (map fst frames) /\
  (forall k, k ∈ map fst frames <-> k ∈ map splitext_root (names images)) /\
  (length frames <= length images)%nat.
Proof.
  intros Hf.
  destruct (frames_loop_keys_inv positions images [] frames Hf (NoDup_nil_2))
    as (Hnd & Hkeys & Hlen).
  split; [exact Hnd |]. split; [| exact Hlen].
  intros k. rewrite Hkeys. simpl. split; [intros [H | ?]; [inversion H | assumption] | auto].
Qed.

Lemma build_frames_names_witness :
  NoDup (map fst [("a", frame_record 36 2 16 16)]) /\
  (length [("a", frame_record 36 2 16 16)] <= 2)%nat.
Proof.
  destruct (build_frames_names
              [("a.jpg", Image (32, 32) []); ("a.png", Image (16, 16) [])]
              (<["a.png" := (36, 2)]> (<["a.jpg" := (2, 2)]> ∅))
              [("a", frame_record 36 2 16 16)]) as (Hnd & _ & Hlen).
  - reflexivity.
  - split; [exact Hnd | exact Hlen].
Defined.

(** ** main: what a run ends with *)



(** X20: what a run saves, writes and prints agree.  The saved sheet has
    one paste per collected image, and with [--pot] both its dimensions
    are powers of two; when the run returns, the ["size"] of the atlas
    and the dimensions of the summary line are the size of the saved
    sheet and the summary line counts as many frames as there are
    pastes; when it does not return, it is the write of the atlas that
    raised, and the sheet stays saved without an atlas and without a
    summary line. *)
Theorem main_outputs_agree w a s :
  sheet_of (main w a) = Some s ->
  length (pastes s) = length (snd (collect_images w)) /\
  (arg_pot a = true -> is_pow2 (fst (sheet_size s)) /\ is_pow2 (snd (sheet_size s))) /\
  (status (main w a) = Returned ->
   meta_field "size" (main w a)
     = Some (JObj [("w", JInt (fst (sheet_size s))); ("h", JInt (snd (sheet_size s)))]) /\
   stdout (main w a) =
     fst (collect_images w)
       ++ [MsgCreated (arg_output a) (fst (sheet_size s)) (snd (sheet_size s)) (arg_json a)
                      (length (pastes s))]) /\
  (status (main w a) <> Returned ->
   exists err,
     status (main w a) = Uncaught (DumpError err) /\
     written (main w a) = [SavedImage (arg_output a) s] /\
     stdout (main w a) = fst (collect_images w)).
Proof.
  intros Hs.
  destruct (sheet_of_main w a s Hs) as (_ & _ & m & frames & _ & Hrun). cbv zeta in Hrun.
  destruct Hrun as (Hsz & Hps & _ & Hmain).
  apply Forall2_length in Hps.
  split; [symmetry; exact Hps |]. split.
  - intros Hpot. rewrite Hsz. unfold sheet_dims. rewrite Hpot. simpl.
    split; apply next_power_of_two_pow2.
  - rewrite Hmain, Hsz, <- Hps. clear Hmain.
    destruct (dump_json w _ _) as [err |]; split; try discriminate.
    + intros _. exists err. auto.
    + intros _. split; reflexivity.
    + intros Hne. exfalso. apply Hne. reflexivity.
Qed.

Lemma sheet_abc :
  sheet_of (main world_abc (with_pot args_abc true))
  = Some (Sheet (256, 256)
            [(Image (64, 64) [], (2, 2)); (Image (128, 64) [], (68, 2));
             (Image (64, 128) [], (2, 68))]).
Proof. vm_compute. reflexivity. Qed.

Lemma main_outputs_agree_witness :
  meta_field "size" (main world_abc (with_pot args_abc true))
    = Some (JObj [("w", JInt 256); ("h", JInt 256)]) /\
  is_pow2 256.
Proof.
  destruct (main_outputs_agree world_abc (with_pot args_abc true) _ sheet_abc)
    as (_ & Hpow & Hret & _).
  split; [exact (proj1 (Hret eq_refl)) | exact (proj1 (Hpow eq_refl))].
Defined.

(** X21: end to end, for a directory listed without repetition, images
    of non-negative size and [0 <= padding]: in the sheet a run saves,
    any two pastes are at least one padding apart, and every paste keeps
    at least one padding to each edge of the sheet, rounded to powers of
    two or not. *)
Theorem main_sheet_layout w a s :
  NoDup (listdir w) ->
  (forall f img, open_image w f = inr img -> wf_image img) ->
  0 <= arg_padding a ->
  sheet_of (main w a) = Some s ->
  (forall i j pi pj,
      i <> j -> pastes s !! i = Some pi -> pastes s !! j = Some pj ->
      padded_disjoint (arg_padding a) (snd pi, fst pi) (snd pj, fst pj)) /\
  (forall i img x y,
      pastes s !! i = Some (img, (x, y)) ->
      arg_padding a <= x /\ arg_padding a <= y /\
      x + img_w img + arg_padding a <= fst (sheet_size s) /\
      y + img_h img + arg_padding a <= snd (sheet_size s)).
Proof.
  intros Hnd Hopen Hpad Hs.
  destruct (sheet_of_main w a s Hs) as (_ & _ & m & frames & _ & Hrun). cbv zeta in Hrun.
  destruct Hrun as (Hsz & Hps & _ & _).
  pose proof (collect_images_NoDup w Hnd) as Hnames.
  pose proof (collect_images_wf w Hopen) as Hwf.
  set (images := snd (collect_images w)) in *.
  set (mw := effective_max_width (arg_width a) m (arg_padding a)) in *.
  assert (forall i j pi pj, (i < j)%nat ->
            pastes s !! i = Some pi -> pastes s !! j = Some pj ->
            padded_disjoint (arg_padding a) (snd pi, fst pi) (snd pj, fst pj)) as Hlt.
  { intros i j pi pj Hij Hi Hj.
    destruct (Forall2_lookup_r _ _ _ _ _ Hps Hi) as (ei & Hei & Himg_i & Hpos_i).
    destruct (Forall2_lookup_r _ _ _ _ _ Hps Hj) as (ej & Hej & Himg_j & Hpos_j).
    destruct (pack_images_ordered images mw (arg_padding a) i j ei ej
                Hpad Hwf Hnames Hij Hei Hej) as (qi & qj & Hqi & Hqj & Hdis).
    rewrite Hpos_i in Hqi. rewrite Hpos_j in Hqj.
    injection Hqi as <-. injection Hqj as <-. rewrite Himg_i, Himg_j. exact Hdis. }
  split.
  - intros i j pi pj Hij Hi Hj.
    destruct (Nat.lt_total i j) as [Hlt' | [Heq | Hgt]]; [| contradiction |].
    + apply (Hlt i j); assumption.
    + apply padded_disjoint_sym, (Hlt j i); assumption.
  - intros i img x y Hi.
    destruct (Forall2_lookup_r _ _ _ _ _ Hps Hi) as (e & He & Himg & Hpos).
    cbn [fst snd] in Himg, Hpos. subst img.
    destruct (pack_images_placed_within images mw (arg_padding a) i e Hpad Hwf Hnames He)
      as (x' & y' & Hxy & Hx & Hy & Hw & Hh).
    rewrite Hpos in Hxy. injection Hxy as <- <-.
    pose proof (sheet_dims_ge (snd (fst (pack_images images mw (arg_padding a))))
                  (snd (pack_images images mw (arg_padding a))) (arg_pot a)) as [Hgw Hgh].
    rewrite Hsz. lia.
Qed.

Lemma world_abc_NoDup : NoDup (listdir world_abc).
Proof. apply (bool_decide_unpack _). vm_compute. exact I. Qed.

Lemma world_abc_wf f img : open_image world_abc f = inr img -> wf_image img.
Proof.
  simpl. unfold open3.
  repeat (destruct (String.eqb f _); [intros [= <-]; unfold wf_image, img_w, img_h; simpl; lia |]).
  discriminate.
Qed.

Lemma main_sheet_layout_witness :
  padded_disjoint 2 ((2, 2), Image (64, 64) []) ((2, 68), Image (64, 128) []) /\
  (2 <= 68 /\ 2 <= 2 /\ 68 + img_w (Image (128, 64) []) + 2 <= 256 /\
   2 + img_h (Image (128, 64) []) + 2 <= 256).
Proof.
  destruct (main_sheet_layout world_abc (with_pot args_abc true) _
              world_abc_NoDup world_abc_wf ltac:(simpl; lia) sheet_abc) as (Hdis & Hin).
  split.
  - exact (Hdis 0%nat 2%nat (Image (64, 64) [], (2, 2)) (Image (64, 128) [], (2, 68))
             ltac:(lia) eq_refl eq_refl).
  - exact (Hin 1%nat (Image (128, 64) []) 68 2 eq_refl).
Defined.

(** X22: for distinct file names the placement map has exactly one entry
    per image: its keys are the file names, as many as there are images,
    and a name that is not in the list has no entry. *)
Theorem pack_images_one_entry_per_file images max_width padding :
  NoDup (names images) ->
  dom (fst (fst (pack_images images max_width padding))) = list_to_set (names images) /\
  size (fst (fst (pack_images images max_width padding))) = length images /\
  (forall fname, fname ∉ names images ->
     fst (fst (pack_images images max_width padding)) !! fname = None).
Proof.
  intros Hnd. split; [apply pack_images_keys |]. split; [apply pack_images_size, Hnd |].
  intros fname Hnot. rewrite pack_images_positions, positions_frame by exact Hnot.
  apply lookup_empty.
Qed.

Lemma pack_images_one_entry_per_file_witness :
  size (fst (fst (pack_images sprites3 256 2))) = length sprites3 /\
  fst (fst (pack_images sprites3 256 2)) !! "d.png" = None.
Proof.
  destruct (pack_images_one_entry_per_file sprites3 256 2 sprites3_NoDup) as (_ & Hsize & Hnone).
  split; [exact Hsize |]. apply Hnone.
  apply (bool_decide_unpack _). vm_compute. exact I.
Defined.

(** X23: the atlas describes the sheet.  When the collected file names
    have pairwise distinct stems and the run returns, every paste of the
    saved sheet is found in the ["frames"] of the atlas under the stem
    of its file name, with the rectangle at which it was pasted and the
    size of its image. *)
Theorem main_atlas_matches_sheet w a s :
  NoDup (map splitext_root (names (snd (collect_images w)))) ->
  sheet_of (main w a) = Some s ->
  status (main w a) = Returned ->
  exists frames,
    atlas_field "frames" (main w a) = Some (JObj frames) /\
    length frames = length (pastes s) /\
    forall i img x y,
      pastes s !! i = Some (img, (x, y)) ->
      exists fname,
        snd (collect_images w) !! i = Some (fname, img) /\
        jget (splitext_root fname) (JObj frames)
        = Some (frame_record x y (img_w img) (img_h img)).
Proof.
  intros Hstems Hs Hret.
  destruct (sheet_of_main w a s Hs) as (_ & _ & m & frames & _ & Hrun). cbv zeta in Hrun.
  destruct Hrun as (_ & Hps & Hfr & Hmain).
  assert (atlas_field "frames" (main w a) = Some (JObj frames)) as Hatlas.
  { rewrite Hmain in Hret |- *. clear Hmain.
    destruct (dump_json w _ _); [discriminate | reflexivity]. }
  exists frames. split; [exact Hatlas |]. split.
  - rewrite <- (Forall2_length _ _ _ Hps), <- (length_map fst frames).
    rewrite (build_frames_keys _ _ _ Hstems Hfr). unfold names. rewrite !length_map. reflexivity.
  - intros i img x y Hi.
    destruct (Forall2_lookup_r _ _ _ _ _ Hps Hi) as ([fname img'] & He & Himg & Hpos).
    cbn [fst snd] in Himg, Hpos. subst img'.
    exists fname. split; [exact He |].
    rewrite (frames_loop_lookup _ _ _ [] frames Hfr).
    pose proof (last_with_stem_unique _ (fname, img) Hstems
                  (proj2 (list_elem_of_lookup _ _) (ex_intro _ i He))) as Hl.
    cbn [fst] in Hl. rewrite Hl. unfold frame_of. cbn [fst snd]. rewrite Hpos. reflexivity.
Qed.

Lemma main_atlas_matches_sheet_witness :
  exists frames,
    atlas_field "frames" (main world_abc (with_pot args_abc true)) = Some (JObj frames) /\
    length frames = 3%nat /\
    jget (splitext_root "c.png") (JObj frames)
    = Some (frame_record 2 68 (img_w (Image (64, 128) [])) (img_h (Image (64, 128) []))).
Proof.
  destruct (main_atlas_matches_sheet world_abc (with_pot args_abc true) _
              ltac:(apply (bool_decide_unpack _); vm_compute; exact I) sheet_abc
              ltac:(vm_compute; reflexivity))
    as (frames & Hatlas & Hlen & Hframes).
  exists frames. split; [exact Hatlas |]. split; [exact Hlen |].
  destruct (Hframes 2%nat (Image (64, 128) []) 2 68 eq_refl) as (fname & Hname & Hget).
  vm_compute in Hname. injection Hname as <-. exact Hget.
Defined.
